(** * Actor and critic networks of [networks/acnetwork_seperated.py]

    A shallow embedding of the two [torch.nn.Module] classes [ActorNet] and
    [CriticNet], of the tensor operations their [forward] methods use, and of
    the object store in which their parameter tensors live.

    Numbers.  Tensor entries are IEEE floating-point numbers in the program.
    Here an entry is an exact rational or one of the IEEE special values
    (the two infinities and NaN): products, quotients and sums are computed
    without rounding, and the special values follow the IEEE rules
    ([0 * inf], [0 / 0], [inf / inf] and [inf - inf] are NaN, [x / 0] is an
    infinity for [x <> 0]).  The two zeros of IEEE are identified.

    Tensors.  A tensor is a shape and a row-major list of entries, as a
    contiguous torch tensor is. *)

From Stdlib Require Import QArith Qcanon Qround Qabs Qpower ZArith Lia Lqa List.
From stdpp Require Import base numbers list strings.

Set Warnings "-register-all".

Local Open Scope Qc_scope.
Local Open Scope nat_scope.

(** ** Scalars *)

Inductive scalar : Type :=
| Fin (q : Qc)
| Inf (neg : bool)
| NaN.

#[global] Instance scalar_eq_dec : EqDecision scalar.
Proof. solve_decision. Defined.

#[global] Instance scalar_inhabited : Inhabited scalar := populate (Fin 0%Qc).

Definition of_Z (z : Z) : scalar := Fin (Q2Qc (inject_Z z)).

Definition zero : scalar := Fin 0%Qc.
Definition one : scalar := Fin 1%Qc.

Definition is_neg (q : Qc) : bool := bool_decide (q < 0)%Qc.

Definition is_finite (x : scalar) : bool :=
  match x with Fin _ => true | _ => false end.

Definition smul (x y : scalar) : scalar :=
  match x, y with
  | NaN, _ | _, NaN => NaN
  | Fin a, Fin b => Fin (a * b)%Qc
  | Fin a, Inf s | Inf s, Fin a =>
      if decide (a = 0%Qc) then NaN else Inf (xorb (is_neg a) s)
  | Inf s, Inf s' => Inf (xorb s s')
  end.

Definition sdiv (x y : scalar) : scalar :=
  match x, y with
  | NaN, _ | _, NaN => NaN
  | Fin a, Fin b =>
      if decide (b = 0%Qc)
      then (if decide (a = 0%Qc) then NaN else Inf (is_neg a))
      else Fin (a / b)%Qc
  | Fin _, Inf _ => Fin 0%Qc
  | Inf s, Fin b => Inf (xorb s (is_neg b))
  | Inf _, Inf _ => NaN
  end.

Definition sadd (x y : scalar) : scalar :=
  match x, y with
  | NaN, _ | _, NaN => NaN
  | Fin a, Fin b => Fin (a + b)%Qc
  | Fin _, Inf s | Inf s, Fin _ => Inf s
  | Inf s, Inf s' => if Bool.eqb s s' then Inf s else NaN
  end.

(** [torch.nn.ReLU] on one entry: [max(0, x)], NaN is propagated. *)
Definition srelu (x : scalar) : scalar :=
  match x with
  | Fin a => if is_neg a then Fin 0%Qc else Fin a
  | Inf true => Fin 0%Qc
  | Inf false => Inf false
  | NaN => NaN
  end.

Definition ssum (l : list scalar) : scalar := foldr sadd zero l.

(** ** Errors raised by the Python program *)

Inductive error : Type :=
| AttributeError (name : string)
| RuntimeError
| IndexError.

Inductive result (A : Type) : Type :=
| Ok (a : A)
| Err (e : error).
Arguments Ok {A} a.
Arguments Err {A} e.

#[global] Instance result_bind : MBind result := λ A B f m,
  match m with Ok a => f a | Err e => Err e end.

Definition is_ok {A} (r : result A) : bool :=
  match r with Ok _ => true | Err _ => false end.

#[global] Instance error_eq_dec : EqDecision error.
Proof. solve_decision. Defined.

#[global] Instance result_eq_dec `{EqDecision A} : EqDecision (result A).
Proof. solve_decision. Defined.

(** ** Tensors *)

Record tensor : Type := Tensor { shape : list nat; data : list scalar }.

#[global] Instance tensor_eq_dec : EqDecision tensor.
Proof. solve_decision. Defined.

Definition numel (sh : list nat) : nat := foldr Nat.mul 1 sh.

(** A tensor is well-formed when its storage has one entry per index. *)
Definition wf (t : tensor) : Prop := length (data t) = numel (shape t).

(** Entry [i] of a storage; reads outside the storage do not occur in
    well-formed tensors. *)
Definition get (d : list scalar) (i : nat) : scalar := nth i d zero.

(** The [i]-th block of [n] consecutive entries. *)
Definition chunk (n i : nat) (d : list scalar) : list scalar :=
  take n (drop (i * n) d).

(** *** Broadcasting *)

Definition broadcast_dim (a b : nat) : option nat :=
  if decide (a = b) then Some a
  else if decide (a = 1) then Some b
  else if decide (b = 1) then Some a
  else None.

Fixpoint broadcast_aligned (s1 s2 : list nat) : option (list nat) :=
  match s1, s2 with
  | [], [] => Some []
  | a :: s1', b :: s2' =>
      match broadcast_dim a b, broadcast_aligned s1' s2' with
      | Some d, Some r => Some (d :: r)
      | _, _ => None
      end
  | _, _ => None
  end.

(** Shapes are aligned at their last dimension; the shorter one is
    extended with leading ones. *)
Definition pad_shape (n : nat) (s : list nat) : list nat :=
  replicate (n - length s) 1 ++ s.

Definition broadcast_shapes (s1 s2 : list nat) : option (list nat) :=
  let n := Nat.max (length s1) (length s2) in
  broadcast_aligned (pad_shape n s1) (pad_shape n s2).

(** The storage of a tensor of shape [src] seen at shape [tgt] (both of
    the same rank): a dimension of size one is repeated. *)
Fixpoint expand (src tgt : list nat) (d : list scalar) : list scalar :=
  match src, tgt with
  | a :: src', b :: tgt' =>
      if decide (a = b)
      then flat_map (λ i, expand src' tgt' (chunk (numel src') i d)) (seq 0 b)
      else mjoin (replicate b (expand src' tgt' d))
  | _, _ => d
  end.

Definition expand_to (tgt : list nat) (t : tensor) : list scalar :=
  expand (pad_shape (length tgt) (shape t)) tgt (data t).

(** [x op y], out of place: the result has the broadcast shape. *)
Definition binop (f : scalar → scalar → scalar) (x y : tensor) : result tensor :=
  match broadcast_shapes (shape x) (shape y) with
  | Some sh => Ok (Tensor sh (zip_with f (expand_to sh x) (expand_to sh y)))
  | None => Err RuntimeError
  end.

(** [x op= y], in place: the broadcast shape has to be the shape of [x]. *)
Definition binop_ (f : scalar → scalar → scalar) (x y : tensor) : result tensor :=
  match broadcast_shapes (shape x) (shape y) with
  | Some sh =>
      if decide (sh = shape x)
      then Ok (Tensor sh (zip_with f (expand_to sh x) (expand_to sh y)))
      else Err RuntimeError
  | None => Err RuntimeError
  end.

Definition mul : tensor → tensor → result tensor := binop smul.
Definition div_ : tensor → tensor → result tensor := binop_ sdiv.

(** [x.sum(1)]: the sum along dimension 1, which is removed. *)
Definition sum1 (x : tensor) : result tensor :=
  match shape x with
  | n0 :: n1 :: rest =>
      let inner := numel rest in
      Ok (Tensor (n0 :: rest)
            (flat_map (λ i,
               map (λ p, ssum (map (λ j, get (data x) ((i * n1 + j) * inner + p))
                                   (seq 0 n1)))
                   (seq 0 inner))
               (seq 0 n0)))
  | _ => Err IndexError
  end.

(** [torch.cat(ts, dim)]: the tensors agree on every dimension but [dim]. *)
Definition cat (ts : list tensor) (dim : nat) : result tensor :=
  match ts with
  | [] => Err RuntimeError
  | t0 :: _ =>
      let pre := take dim (shape t0) in
      let post := drop (S dim) (shape t0) in
      if decide (dim < length (shape t0)) then
        if forallb (λ t, bool_decide (length (shape t) = length (shape t0)
                                      ∧ take dim (shape t) = pre
                                      ∧ drop (S dim) (shape t) = post)) ts
        then Ok (Tensor (pre ++ sum_list (map (λ t, nth dim (shape t) 0) ts) :: post)
                   (flat_map (λ i,
                      flat_map (λ t, chunk (nth dim (shape t) 0 * numel post) i (data t)) ts)
                      (seq 0 (numel pre))))
        else Err RuntimeError
      else Err IndexError
  end.

(** ** Layers *)

(** Output size of a convolution along one axis (dilation 1), the formula
    of [_conv_output_shape]. *)
Definition conv_out (h kernel_size stride pad : nat) : nat :=
  (h + 2 * pad - (kernel_size - 1) - 1) / stride + 1.

Definition dot (u v : list scalar) : scalar := ssum (zip_with smul u v).

Section conv2d.
Variables (cin cout k stride pad : nat) (w b : list scalar).

(** Entry [(py, px)] of the zero-padded channel [c] of example [i]. *)
Definition padded (x : list scalar) (h wd i c py px : nat) : scalar :=
  if bool_decide (pad ≤ py < pad + h ∧ pad ≤ px < pad + wd)
  then get x (((i * cin + c) * h + (py - pad)) * wd + (px - pad))
  else zero.

(** The entries of example [i] under the filter placed at output cell
    [(y, x')], in the order of the filter's storage. *)
Definition window (x : list scalar) (h wd i y x' : nat) : list scalar :=
  flat_map (λ c,
    flat_map (λ ky,
      map (λ kx, padded x h wd i c (y * stride + ky) (x' * stride + kx))
          (seq 0 k))
      (seq 0 k))
    (seq 0 cin).

(** [torch.nn.Conv2d] on a batched input [(N, C, H, W)]: the filter of
    output channel [o] is block [o] of the weight's storage. *)
Definition conv2d (x : tensor) : result tensor :=
  match shape x with
  | [n; c; h; wd] =>
      if decide (c = cin ∧ k ≤ h + 2 * pad ∧ k ≤ wd + 2 * pad ∧ 0 < stride) then
        let ho := conv_out h k stride pad in
        let wo := conv_out wd k stride pad in
        Ok (Tensor [n; cout; ho; wo]
              (flat_map (λ i,
                 flat_map (λ o,
                   let filter := chunk (cin * k * k) o w in
                   let bias := get b o in
                   flat_map (λ y,
                     map (λ x', sadd (dot (window (data x) h wd i y x') filter) bias)
                         (seq 0 wo))
                     (seq 0 ho))
                   (seq 0 cout))
                 (seq 0 n)))
      else Err RuntimeError
  | _ => Err RuntimeError
  end.
End conv2d.

(** [torch.nn.Linear]: applied to the last dimension; row [o] of the
    weight is block [o] of its storage. *)
Definition linear (fin fout : nat) (w b : list scalar) (x : tensor) : result tensor :=
  match last (shape x) with
  | Some d =>
      if decide (d = fin) then
        let lead := take (length (shape x) - 1) (shape x) in
        Ok (Tensor (lead ++ [fout])
              (flat_map (λ r,
                 let xr := chunk fin r (data x) in
                 map (λ o, sadd (dot xr (chunk fin o w)) (get b o)) (seq 0 fout))
                 (seq 0 (numel lead))))
      else Err RuntimeError
  | None => Err RuntimeError
  end.

Definition relu (x : tensor) : result tensor :=
  Ok (Tensor (shape x) (map srelu (data x))).

(** Modelled from the spec: [utils.layers.Flatten] is not part of the
    sources at hand; the spec has it flatten each example, [(N, C, H, W)]
    to [(N, C*H*W)], the storage unchanged. *)
Definition flatten (x : tensor) : result tensor :=
  match shape x with
  | n :: rest => Ok (Tensor [n; numel rest] (data x))
  | [] => Err RuntimeError
  end.

(** Modelled from the spec: [utils.layers.Dense2Conv] is not part of the
    sources at hand; the spec has it replicate each entry of a [(N, C)]
    tensor across every cell of the [size] by [size] grid, giving
    [(N, C, size, size)]. *)
Definition dense2conv (size : nat) (x : tensor) : result tensor :=
  match shape x with
  | [n; c] => Ok (Tensor [n; c; size; size]
                    (flat_map (λ v, replicate (size * size) v) (data x)))
  | _ => Err RuntimeError
  end.

(** ** Configuration: [utils.arglist] *)

Class arglist : Type := { NUM_ACTIONS : nat; FEAT2DSIZE : nat }.

Definition minimap_channels : nat := 7.
Definition screen_channels : nat := 17.

(** ** Module objects and the store of parameter tensors *)

Definition loc : Type := nat.

(** A module object.  The learnable tensors of a layer are held by
    reference: two layers with the same locations are the same Python
    object's parameters.  Hyper-parameters and children are never
    reassigned by the program, so they are kept by value. *)
Inductive layer : Type :=
| Conv2d (in_channels out_channels kernel_size stride padding : nat) (weight bias : loc)
| Linear (in_features out_features : nat) (weight bias : loc)
| ReLU
| Flatten
| Dense2Conv
| Sequential (children : list layer).

(** The store maps a location to the tensor that lives there. *)
Definition param (σ : list tensor) (l : loc) : list scalar :=
  match σ !! l with Some t => data t | None => [] end.

(** Calling a module on an input. *)
Fixpoint call `{arglist} (σ : list tensor) (m : layer) (x : tensor) : result tensor :=
  match m with
  | Conv2d cin cout k stride pad w b =>
      conv2d cin cout k stride pad (param σ w) (param σ b) x
  | Linear fin fout w b => linear fin fout (param σ w) (param σ b) x
  | ReLU => relu x
  | Flatten => flatten x
  | Dense2Conv => dense2conv FEAT2DSIZE x
  | Sequential children =>
      (fix go (ms : list layer) (x : tensor) : result tensor :=
         match ms with
         | [] => Ok x
         | m' :: ms' => call σ m' x ≫= go ms'
         end) children x
  end.

(** [parameters()] of a module, in registration order. *)
Fixpoint parameters (m : layer) : list loc :=
  match m with
  | Conv2d _ _ _ _ _ w b | Linear _ _ w b => [w; b]
  | Sequential children =>
      (fix go (ms : list layer) : list loc :=
         match ms with [] => [] | m' :: ms' => parameters m' ++ go ms' end) children
  | _ => []
  end.

(** *** Construction: a state monad over the store and the generator *)

(** The program state that construction reads and writes: the store of
    parameter tensors, and how many values the global random generator has
    handed out so far. *)
Record state : Type := State { store : list tensor; rng : N }.

Definition M (A : Type) : Type := state → A * state.

#[global] Instance M_ret : MRet M := λ A a s, (a, s).
#[global] Instance M_bind : MBind M := λ A B f m s,
  let '(a, s') := m s in f a s'.

Definition numelN (sh : list nat) : N := foldr (λ d acc, N.of_nat d * acc)%N 1%N sh.

(** How parameter values are produced.  [reset_parameters k sh] is the
    tensor storage that a layer constructor draws for a parameter of shape
    [sh] when the generator has handed out [k] values.

    Modelled from the spec: [utils.layers.init_weights] is not part of the
    sources at hand; the spec has it initialise all parameters by a fixed
    scheme applied uniformly to every submodule.  [init_scheme k sh] is the
    storage that scheme produces for a parameter of shape [sh] at generator
    position [k]. *)
Class init_schemes : Type := {
  reset_parameters : N → list nat → list scalar;
  init_scheme : N → list nat → list scalar;
}.

Section construction.
Context `{arglist} `{init_schemes}.

(** A new [torch.nn.Parameter]: a fresh location, filled by the
    constructor's default scheme. *)
Definition new_parameter (sh : list nat) : M loc := λ s,
  (length (store s),
   State (store s ++ [Tensor sh (reset_parameters (rng s) sh)])
         (rng s + numelN sh)%N).

(** [nn.Conv2d(cin, cout, k, stride=, padding=)] *)
Definition new_Conv2d (cin cout k stride pad : nat) : M layer :=
  w ← new_parameter [cout; cin; k; k];
  b ← new_parameter [cout];
  mret (Conv2d cin cout k stride pad w b).

(** [nn.Linear(fin, fout)] *)
Definition new_Linear (fin fout : nat) : M layer :=
  w ← new_parameter [fout; fin];
  b ← new_parameter [fout];
  mret (Linear fin fout w b).

(** Overwrite the tensor at [l] by the initialisation scheme. *)
Definition reinit (l : loc) : M unit := λ s,
  match store s !! l with
  | Some t =>
      (tt, State (<[l := Tensor (shape t) (init_scheme (rng s) (shape t))]> (store s))
                 (rng s + numelN (shape t))%N)
  | None => (tt, s)
  end.

(** Modelled from the spec: [utils.layers.init_weights], applied to one
    module, initialises the parameters that module owns directly. *)
Definition init_weights (m : layer) : M unit :=
  match m with
  | Conv2d _ _ _ _ _ w b | Linear _ _ w b => reinit w ;; reinit b
  | _ => mret tt
  end.

(** [nn.Module.apply(fn)]: the children first, in registration order,
    then the module itself. *)
Fixpoint apply (fn : layer → M unit) (m : layer) : M unit :=
  match m with
  | Sequential children =>
      (fix go (ms : list layer) : M unit :=
         match ms with
         | [] => mret tt
         | m' :: ms' => apply fn m' ;; go ms'
         end) children ;; fn m
  | _ => fn m
  end.

(** The module-level objects, created once when the file is imported. *)
Record globals : Type := Globals {
  conv_minimap : layer;
  conv_screen : layer;
  dense_nonspatial : layer;
}.

Definition import : M globals :=
  conv_minimap ← (c1 ← new_Conv2d minimap_channels 16 5 1 2;
                  c2 ← new_Conv2d 16 32 3 1 1;
                  mret (Sequential [c1; ReLU; c2; ReLU]));
  conv_screen ← (c1 ← new_Conv2d screen_channels 16 5 1 2;
                 c2 ← new_Conv2d 16 32 3 1 1;
                 mret (Sequential [c1; ReLU; c2; ReLU]));
  dense_nonspatial ← (l ← new_Linear NUM_ACTIONS 32;
                      mret (Sequential [l; ReLU; Dense2Conv]));
  mret (Globals conv_minimap conv_screen dense_nonspatial).

(** An instance of a [torch.nn.Module] subclass: its registered
    submodules, by attribute name, in registration order. *)
Definition module : Type := list (string * layer).

(** [self.name]: torch raises [AttributeError] for a name that was
    never assigned. *)
Fixpoint getattr (self : module) (name : string) : result layer :=
  match self with
  | [] => Err (AttributeError name)
  | (k, m) :: self' => if decide (k = name) then Ok m else getattr self' name
  end.

(** [self.apply(fn)] on an instance; [fn] finds nothing to initialise
    on the instance itself. *)
Fixpoint apply_module (fn : layer → M unit) (self : module) : M unit :=
  match self with
  | [] => mret tt
  | (_, m) :: self' => apply fn m ;; apply_module fn self'
  end.

Definition module_parameters (self : module) : list loc :=
  flat_map (λ km, parameters km.2) self.
End construction.

(** ** Inputs of the networks *)

Record observation : Type := Observation {
  minimap : tensor;
  screen : tensor;
  nonspatial : tensor;
}.

Record action : Type := Action {
  categorical : tensor;
  screen1 : tensor;
  screen2 : tensor;
}.

(** ** [class ActorNet] *)

Module ActorNet.
Section ActorNet.
Context `{arglist} `{init_schemes}.

(** [self.train()] only sets the training flag, which none of the layers
    used here reads; it is left out. *)
Definition __init__ (G : globals) : M module :=
  layer_hidden ← (c ← new_Conv2d (32 * 3) 64 3 1 1;
                  mret (Sequential [c; ReLU]));
  layer_action ← (c ← new_Conv2d 64 1 1 1 0;
                  l ← new_Linear (FEAT2DSIZE * FEAT2DSIZE) NUM_ACTIONS;
                  mret (Sequential [c; ReLU; Flatten; l]));
  layer_screen1 ← new_Conv2d 64 1 1 1 0;
  layer_screen2 ← new_Conv2d 64 1 1 1 0;
  let self : module :=
    [("minimap_conv_layers", conv_minimap G);
     ("screen_conv_layers", conv_screen G);
     ("nonspatial_dense", dense_nonspatial G);
     ("layer_hidden", layer_hidden);
     ("layer_action", layer_action);
     ("layer_screen1", layer_screen1);
     ("layer_screen2", layer_screen2)] in
  apply_module init_weights self;;
  mret self.

Definition _mask_unavailable_actions (policy valid_actions : tensor) : result tensor :=
  masked_policy_vb ← mul policy valid_actions;
  s ← sum1 masked_policy_vb;
  div_ masked_policy_vb s.

Definition forward (σ : list tensor) (self : module)
    (obs : observation) (valid_actions : tensor)
    : result (tensor * tensor * tensor) :=
  let obs_minimap := minimap obs in
  let obs_screen := screen obs in
  let obs_nonspatial := nonspatial obs in
  f ← getattr self "minimap_conv_layers"; m ← call σ f obs_minimap;
  f ← getattr self "screen_conv_layers"; s ← call σ f obs_screen;
  f ← getattr self "nonspatial_dense"; n ← call σ f obs_nonspatial;
  state_h ← cat [m; s; n] 1;
  f ← getattr self "layer_hidden"; state_h ← call σ f state_h;
  f ← getattr self "layer_action"; pol_categorical ← call σ f state_h;
  pol_categorical ← _mask_unavailable_actions pol_categorical valid_actions;
  f ← getattr self "layer_screen1_x"; pol_screen1 ← call σ f state_h;
  f ← getattr self "layer_screen2_x"; pol_screen2 ← call σ f state_h;
  Ok (pol_categorical, pol_screen1, pol_screen2).
End ActorNet.
End ActorNet.

(** ** [class CriticNet] *)

Module CriticNet.
Section CriticNet.
Context `{arglist} `{init_schemes}.

Definition __init__ (G : globals) : M module :=
  conv_action ← (c1 ← new_Conv2d 2 16 5 1 2;
                 c2 ← new_Conv2d 16 32 3 1 1;
                 mret (Sequential [c1; ReLU; c2; ReLU]));
  action_dense ← (l ← new_Linear NUM_ACTIONS 32;
                  mret (Sequential [l; ReLU; Dense2Conv]));
  layer_hidden ← (c1 ← new_Conv2d (32 * 5) 64 3 1 1;
                  c2 ← new_Conv2d 64 1 1 1 0;
                  mret (Sequential [c1; ReLU; c2; ReLU; Flatten]));
  layer_value ← new_Linear (FEAT2DSIZE * FEAT2DSIZE) 1;
  let self : module :=
    [("minimap_conv_layers", conv_minimap G);
     ("screen_conv_layers", conv_screen G);
     ("nonspatial_dense", dense_nonspatial G);
     ("conv_action", conv_action);
     ("action_dense", action_dense);
     ("layer_hidden", layer_hidden);
     ("layer_value", layer_value)] in
  apply_module init_weights self;;
  mret self.

Definition forward (σ : list tensor) (self : module)
    (obs : observation) (actions : action) : result tensor :=
  let obs_minimap := minimap obs in
  let obs_screen := screen obs in
  let obs_nonspatial := nonspatial obs in
  let act_categorical := categorical actions in
  let act_screen1 := screen1 actions in
  let act_screen2 := screen2 actions in
  f ← getattr self "minimap_conv_layers"; m ← call σ f obs_minimap;
  f ← getattr self "screen_conv_layers"; s ← call σ f obs_screen;
  f ← getattr self "nonspatial_dense"; n ← call σ f obs_nonspatial;
  f ← getattr self "conv_action";
  x ← cat [act_screen1; act_screen2] 1;
  a_spatial ← call σ f x;
  f ← getattr self "action_dense"; a_nonspatial ← call σ f act_categorical;
  sa ← cat [m; s; n; a_spatial; a_nonspatial] 1;
  f ← getattr self "layer_hidden"; sa ← call σ f sa;
  f ← getattr self "layer_value"; q ← call σ f sa;
  Ok q.
End CriticNet.
End CriticNet.

(** * Properties *)

(** ** Storage blocks *)

Lemma flat_map_ext_seq {B} (f g : nat → list B) (s n : nat) :
  (∀ i, s ≤ i < s + n → f i = g i) → flat_map f (seq s n) = flat_map g (seq s n).
Proof.
  revert s. induction n as [|n IH]; intros s Hfg; simpl; [done|].
  rewrite Hfg by lia. f_equal. apply IH. intros i Hi. apply Hfg. lia.
Qed.

Lemma length_chunk (n i : nat) (d : list scalar) :
  (i + 1) * n ≤ length d → length (chunk n i d) = n.
Proof. intros Hd. unfold chunk. rewrite length_take, length_drop. lia. Qed.

Lemma chunk_0_all (n : nat) (d : list scalar) : length d = n → chunk n 0 d = d.
Proof. intros <-. unfold chunk. simpl. by rewrite firstn_all. Qed.

(** Block [i] of a storage that was built block by block. *)
Lemma chunk_flat_map (f : nat → list scalar) (c n i : nat) :
  (∀ j, j < n → length (f j) = c) → i < n →
  chunk c i (flat_map f (seq 0 n)) = f i.
Proof.
  intros Hf Hi. unfold chunk.
  assert (Hgen : ∀ m s, (∀ j, s ≤ j < s + m → length (f j) = c) →
                 ∀ i, i < m → take c (drop (i * c) (flat_map f (seq s m))) = f (s + i)).
  { clear. induction m as [|m IH]; intros s Hf i Hi; [lia|].
    simpl. destruct i as [|i].
    - rewrite Nat.add_0_r. change (0 * c) with 0. rewrite drop_0.
      rewrite take_app_le by (rewrite Hf; lia).
      rewrite firstn_all2; [done|]. rewrite Hf; lia.
    - replace (S i * c) with (length (f s) + i * c) by (rewrite Hf; lia).
      rewrite drop_app_add'; [|done]. rewrite IH; [f_equal; lia| |lia].
      intros j Hj. apply Hf. lia. }
  apply (Hgen n 0); [|done]. intros j Hj. apply Hf. lia.
Qed.

(** Cutting a storage into its blocks and gluing them gives it back. *)
Lemma flat_map_chunk (c n : nat) (d : list scalar) :
  length d = n * c → flat_map (λ i, chunk c i d) (seq 0 n) = d.
Proof.
  unfold chunk. revert d.
  assert (Hgen : ∀ n s (d : list scalar), length d = (s + n) * c →
                 flat_map (λ i, take c (drop (i * c) d)) (seq s n) = drop (s * c) d).
  { clear. induction n as [|n IH]; intros s d Hd; simpl.
    - rewrite drop_ge; [done|]. lia.
    - rewrite IH by lia. rewrite <-(take_drop c (drop (s * c) d)) at 2.
      f_equal. rewrite drop_drop. f_equal. lia. }
  intros d Hd. by rewrite (Hgen n 0 d).
Qed.

Lemma map_get_seq (d : list scalar) :
  map (get d) (seq 0 (length d)) = d.
Proof.
  unfold get. apply nth_ext with (d := zero) (d' := zero).
  - by rewrite length_map, length_seq.
  - intros i Hi. rewrite length_map, length_seq in Hi.
    rewrite (nth_indep _ zero (get d 0)) by (by rewrite length_map, length_seq).
    rewrite (map_nth (get d)). unfold get. by rewrite seq_nth.
Qed.

Lemma zip_with_replicate_r (f : scalar → scalar → scalar) (d : list scalar) (s : scalar) :
  zip_with f d (replicate (length d) s) = map (λ x, f x s) d.
Proof. induction d as [|x d IH]; simpl; [done|]. by rewrite IH. Qed.

Lemma length_zip_with_same (f : scalar → scalar → scalar) (u v : list scalar) :
  length u = length v → length (zip_with f u v) = length u.
Proof. intros Huv. rewrite length_zip_with. lia. Qed.

(** ** Broadcasting *)

Lemma numel_cons (a : nat) (sh : list nat) : numel (a :: sh) = a * numel sh.
Proof. done. Qed.

(** Expanding a well-formed storage to its own shape changes nothing. *)
Lemma expand_id (sh : list nat) (d : list scalar) :
  length d = numel sh → expand sh sh d = d.
Proof.
  revert d. induction sh as [|a sh IH]; intros d Hd; simpl; [done|].
  rewrite decide_True by done. rewrite numel_cons in Hd.
  etrans; [|by apply (flat_map_chunk (numel sh) a d)].
  apply flat_map_ext_seq. intros i Hi.
  apply IH, length_chunk. nia.
Qed.

Lemma pad_shape_id (sh : list nat) : pad_shape (length sh) sh = sh.
Proof. unfold pad_shape. by rewrite Nat.sub_diag. Qed.

Lemma broadcast_dim_same (a : nat) : broadcast_dim a a = Some a.
Proof. unfold broadcast_dim. by rewrite decide_True. Qed.

Lemma broadcast_dim_1_r (a : nat) : broadcast_dim a 1 = Some a.
Proof. unfold broadcast_dim. repeat case_decide; congruence. Qed.

Lemma broadcast_dim_1_l (a : nat) : broadcast_dim 1 a = Some a.
Proof. unfold broadcast_dim. repeat case_decide; congruence. Qed.

(** A one-entry storage expanded along a dimension of size [a]. *)
Lemma expand_scalar_row (a : nat) (s : scalar) :
  expand [1; 1] [1; a] [s] = replicate a s.
Proof.
  simpl. rewrite app_nil_r. unfold chunk. simpl. case_decide as Ha.
  - subst a. done.
  - clear Ha. induction a as [|a IH]; simpl; [done|]. by rewrite IH.
Qed.

(** ** The masking step on one example *)

(** What the masking step computes for one example, entry by entry. *)
Definition normalised (r : list scalar) : list scalar :=
  map (λ x, sdiv x (ssum r)) r.

Lemma broadcast_row_vec (A : nat) : broadcast_shapes [1; A] [A] = Some [1; A].
Proof.
  unfold broadcast_shapes, pad_shape. simpl.
  by rewrite broadcast_dim_same.
Qed.

Lemma broadcast_row_row (A : nat) : broadcast_shapes [1; A] [1; A] = Some [1; A].
Proof.
  unfold broadcast_shapes, pad_shape. simpl.
  by rewrite broadcast_dim_same.
Qed.

Lemma broadcast_row_scalar (A : nat) : broadcast_shapes [1; A] [1] = Some [1; A].
Proof.
  unfold broadcast_shapes, pad_shape. simpl.
  by rewrite broadcast_dim_1_r.
Qed.

Lemma mul_row (A : nat) (p m : list scalar) (shm : list nat) :
  length p = A → length m = A → shm = [A] ∨ shm = [1; A] →
  mul (Tensor [1; A] p) (Tensor shm m) = Ok (Tensor [1; A] (zip_with smul p m)).
Proof.
  intros Hp Hm Hsh. unfold mul, binop. simpl shape.
  assert (Hb : broadcast_shapes [1; A] shm = Some [1; A]).
  { destruct Hsh as [-> | ->]; [apply broadcast_row_vec | apply broadcast_row_row]. }
  rewrite Hb. do 2 f_equal. unfold expand_to. simpl shape. simpl data.
  change (pad_shape (length [1; A]) [1; A]) with [1; A].
  assert (Hpad : pad_shape (length [1; A]) shm = [1; A]).
  { by destruct Hsh as [-> | ->]. }
  rewrite Hpad. rewrite !expand_id; [done | |]; simpl; lia.
Qed.

Lemma sum1_row (A : nat) (d : list scalar) :
  length d = A → sum1 (Tensor [1; A] d) = Ok (Tensor [1] [ssum d]).
Proof.
  intros Hd. unfold sum1. simpl. do 3 f_equal.
  trans (ssum (map (get d) (seq 0 (length d)))); [|by rewrite map_get_seq].
  rewrite Hd. f_equal. apply map_ext. intros j. f_equal. lia.
Qed.

Lemma div_row (A : nat) (d : list scalar) (s : scalar) :
  length d = A →
  div_ (Tensor [1; A] d) (Tensor [1] [s]) = Ok (Tensor [1; A] (map (λ x, sdiv x s) d)).
Proof.
  intros Hd. unfold div_, binop_. simpl shape.
  rewrite broadcast_row_scalar, decide_True by done. do 2 f_equal.
  unfold expand_to. simpl shape. simpl data.
  change (pad_shape (length [1; A]) [1; A]) with [1; A].
  change (pad_shape (length [1; A]) [1]) with [1; 1].
  rewrite expand_scalar_row, expand_id by (simpl; lia).
  subst A. apply zip_with_replicate_r.
Qed.

(** With a batch of one example the masking step normalises the masked
    row by its sum. *)
Lemma mask_batch1 (A : nat) (p m : list scalar) (shm : list nat) :
  length p = A → length m = A → shm = [A] ∨ shm = [1; A] →
  ActorNet._mask_unavailable_actions (Tensor [1; A] p) (Tensor shm m)
  = Ok (Tensor [1; A] (normalised (zip_with smul p m))).
Proof.
  intros Hp Hm Hsh. unfold ActorNet._mask_unavailable_actions.
  rewrite (mul_row A) by done. cbn [mbind result_bind].
  rewrite (sum1_row A) by (rewrite length_zip_with; lia). cbn [mbind result_bind].
  by rewrite (div_row A) by (rewrite length_zip_with; lia).
Qed.

(** ** Rows of finite entries *)

Definition finite_row (p : list scalar) : Prop := Forall (λ x, is_finite x = true) p.

Definition nonneg (x : scalar) : Prop :=
  match x with Fin q => (0 ≤ q)%Qc | _ => False end.

(** A validity mask: every entry is 0 or 1. *)
Definition binary (m : list scalar) : Prop := Forall (λ x, x = zero ∨ x = one) m.

(** The one-hot row of length [A] with its 1 at index [k]. *)
Definition one_hot (A k : nat) : list scalar := <[k := one]> (replicate A zero).

Definition Qcsum (qs : list Qc) : Qc := foldr Qcplus 0%Qc qs.

Lemma finite_row_Fin (p : list scalar) :
  finite_row p → ∃ qs, p = map Fin qs.
Proof.
  induction 1 as [|x p Hx _ [qs ->]]; [by exists []|].
  destruct x as [q| |]; try discriminate. by exists (q :: qs).
Qed.

Lemma binary_finite (m : list scalar) : binary m → finite_row m.
Proof. intros Hm. eapply Forall_impl; [exact Hm|]. by intros x [-> | ->]. Qed.

Lemma ssum_Fin (qs : list Qc) : ssum (map Fin qs) = Fin (Qcsum qs).
Proof.
  induction qs as [|q qs IH]; [done|].
  unfold ssum in *. simpl. by rewrite IH.
Qed.

Lemma zip_smul_Fin (qs ms : list Qc) :
  zip_with smul (map Fin qs) (map Fin ms) = map Fin (zip_with Qcmult qs ms).
Proof.
  revert ms. induction qs as [|q qs IH]; intros [|m ms]; simpl; [done..|].
  by rewrite IH.
Qed.

Lemma Qcsum_scale (qs : list Qc) (c : Qc) :
  Qcsum (map (λ q, q * c)%Qc qs) = (Qcsum qs * c)%Qc.
Proof.
  induction qs as [|q qs IH]; unfold Qcsum in *; simpl; [ring|].
  rewrite IH. ring.
Qed.

Lemma Qcsum_nonneg (qs : list Qc) :
  Forall (λ q, 0 ≤ q)%Qc qs → (0 ≤ Qcsum qs)%Qc.
Proof.
  induction 1 as [|q qs Hq _ IH]; unfold Qcsum in *; simpl; [done|].
  by apply Qcplus_nonneg_nonneg.
Qed.

(** Dividing a finite row by a non-zero finite number. *)
Lemma map_sdiv_Fin (rs : list Qc) (S : Qc) :
  S ≠ 0%Qc →
  map (λ x, sdiv x (Fin S)) (map Fin rs) = map Fin (map (λ r, r * / S)%Qc rs).
Proof.
  intros HS. rewrite !map_map. apply map_ext. intros r. simpl.
  by rewrite decide_False.
Qed.

(** A finite row with a non-zero sum is normalised to a row that sums to
    one; signs are kept when no entry is negative. *)
Lemma normalised_finite (rs : list Qc) :
  Qcsum rs ≠ 0%Qc →
  ∃ os, normalised (map Fin rs) = map Fin os
        ∧ Qcsum os = 1%Qc
        ∧ (Forall (λ q, 0 ≤ q)%Qc rs → Forall (λ q, 0 ≤ q)%Qc os).
Proof.
  intros HS. exists (map (λ r, r * / Qcsum rs)%Qc rs). split_and!.
  - unfold normalised. rewrite ssum_Fin. by apply map_sdiv_Fin.
  - rewrite Qcsum_scale. by apply Qcmult_inv_r.
  - intros Hrs. assert (0 < Qcsum rs)%Qc as Hpos.
    { destruct (Qcle_lt_or_eq _ _ (Qcsum_nonneg rs Hrs)); [done|congruence]. }
    apply Forall_map. eapply Forall_impl; [exact Hrs|].
    intros q Hq. simpl. apply Qcmult_nonneg_nonneg; [done|].
    by apply Qclt_le_weak, Qcinv_pos.
Qed.

Lemma nonneg_Fin (qs : list Qc) :
  Forall nonneg (map Fin qs) ↔ Forall (λ q, 0 ≤ q)%Qc qs.
Proof. by rewrite Forall_map. Qed.

Lemma binary_Fin (ms : list Qc) :
  binary (map Fin ms) → Forall (λ q, 0 ≤ q)%Qc ms.
Proof.
  unfold binary. rewrite Forall_map. intros Hm.
  eapply Forall_impl; [exact Hm|].
  intros q [Hq | Hq]; injection Hq as ->; done.
Qed.

Lemma zip_Qcmult_nonneg (qs ms : list Qc) :
  Forall (λ q, 0 ≤ q)%Qc qs → Forall (λ q, 0 ≤ q)%Qc ms →
  Forall (λ q, 0 ≤ q)%Qc (zip_with Qcmult qs ms).
Proof.
  intros Hqs. revert ms. induction Hqs as [|q qs Hq _ IH]; intros ms Hms; [done|].
  destruct Hms as [|m ms Hm Hms]; simpl; [done|].
  constructor; [by apply Qcmult_nonneg_nonneg | by apply IH].
Qed.

(** The masking step on one example with finite raw outputs, when the
    masked raw outputs do not sum to zero. *)
Lemma mask_normalises (A : nat) (p m : list scalar) (shm : list nat) :
  length p = A → length m = A → shm = [A] ∨ shm = [1; A] →
  finite_row p → binary m → ssum (zip_with smul p m) ≠ zero →
  ∃ out, ActorNet._mask_unavailable_actions (Tensor [1; A] p) (Tensor shm m)
         = Ok (Tensor [1; A] out)
         ∧ length out = A
         ∧ finite_row out
         ∧ ssum out = one
         ∧ (Forall nonneg p → Forall nonneg out).
Proof.
  intros Hp Hm Hsh [qs ->]%finite_row_Fin Hbin Hsum.
  destruct (finite_row_Fin m (binary_finite m Hbin)) as [ms ->].
  rewrite (mask_batch1 A) by done.
  rewrite zip_smul_Fin in *. rewrite ssum_Fin in Hsum.
  destruct (normalised_finite (zip_with Qcmult qs ms)) as (os & Hos & Hone & Hnn).
  { intros Heq. apply Hsum. unfold zero. by rewrite Heq. }
  exists (map Fin os). rewrite Hos. split_and!; [done| | | |].
  - apply (f_equal length) in Hos. unfold normalised in Hos.
    rewrite !length_map, length_zip_with in Hos.
    rewrite !length_map in *. lia.
  - apply Forall_map. by apply Forall_true.
  - rewrite ssum_Fin. by rewrite Hone.
  - intros Hqs%nonneg_Fin. apply nonneg_Fin, Hnn.
    apply zip_Qcmult_nonneg; [done|]. by apply binary_Fin.
Qed.

(** ** Entries that are zero or NaN *)

Definition zero_or_nan (x : scalar) : Prop := x = zero ∨ x = NaN.

Lemma smul_zero_r (x : scalar) : zero_or_nan (smul x zero).
Proof.
  destruct x as [q| |]; simpl; [left|right..]; [|done..].
  unfold zero. by rewrite Qcmult_0_r.
Qed.

Lemma smul_Fin_zero (q : Qc) : smul (Fin q) zero = zero.
Proof. simpl. unfold zero. by rewrite Qcmult_0_r. Qed.

Lemma smul_one_r (x : scalar) : smul x one = x.
Proof.
  destruct x as [q|[]|]; simpl; [|done..].
  by rewrite Qcmult_1_r.
Qed.

Lemma sadd_zero_or_nan (x y : scalar) :
  zero_or_nan x → zero_or_nan y → zero_or_nan (sadd x y).
Proof. intros [-> | ->] [-> | ->]; simpl; [left|right..]; done. Qed.

Lemma ssum_zero_or_nan (l : list scalar) :
  Forall zero_or_nan l → zero_or_nan (ssum l).
Proof.
  induction 1 as [|x l Hx _ IH]; [by left|].
  by apply sadd_zero_or_nan.
Qed.

Lemma sdiv_zero_or_nan (x y : scalar) :
  zero_or_nan x → zero_or_nan y → sdiv x y = NaN.
Proof. by intros [-> | ->] [-> | ->]. Qed.

Lemma sdiv_zero_l (S : Qc) : S ≠ 0%Qc → sdiv zero (Fin S) = zero.
Proof.
  intros HS. simpl. rewrite decide_False by done.
  unfold zero. f_equal. apply Qcmult_0_l.
Qed.

Lemma sdiv_self (a : Qc) : a ≠ 0%Qc → sdiv (Fin a) (Fin a) = one.
Proof.
  intros Ha. simpl. rewrite decide_False by done.
  unfold one. f_equal. by apply Qcmult_inv_r.
Qed.

(** A mask of zeros and ones that sums to zero has no one. *)
Lemma binary_sum_zero (m : list scalar) :
  binary m → ssum m = zero → m = replicate (length m) zero.
Proof.
  intros Hbin. destruct (finite_row_Fin m (binary_finite m Hbin)) as [ms ->].
  rewrite ssum_Fin. intros [= Hsum].
  pose proof (binary_Fin ms Hbin) as Hnn. unfold binary in Hbin.
  rewrite Forall_map in Hbin.
  induction Hbin as [|q ms Hq Hms IH]; [done|].
  apply Forall_cons in Hnn as [_ Hnn].
  pose proof (Qcsum_nonneg ms Hnn) as HS.
  change (Qcsum (q :: ms)) with (q + Qcsum ms)%Qc in Hsum.
  simpl in Hq. destruct Hq as [[= ->] | [= ->]].
  - rewrite Qcplus_0_l in Hsum. simpl. f_equal. by apply IH.
  - exfalso. assert (0 < 1 + Qcsum ms)%Qc as Hpos
      by (by apply Qcplus_pos_nonneg).
    rewrite Hsum in Hpos. by apply Qclt_not_eq in Hpos.
Qed.

Lemma zip_smul_zeros (p : list scalar) :
  Forall zero_or_nan (zip_with smul p (replicate (length p) zero)).
Proof.
  induction p as [|x p IH]; simpl; [done|].
  constructor; [apply smul_zero_r | done].
Qed.

Lemma zip_smul_zeros_finite (p : list scalar) :
  finite_row p →
  zip_with smul p (replicate (length p) zero) = replicate (length p) zero.
Proof.
  induction 1 as [|x p Hx _ IH]; simpl; [done|].
  destruct x as [q| |]; try discriminate.
  by rewrite smul_Fin_zero, IH.
Qed.

Lemma ssum_zeros (n : nat) : ssum (replicate n zero) = zero.
Proof.
  induction n as [|n IH]; [done|].
  unfold ssum in *. simpl replicate. simpl foldr. rewrite IH. simpl.
  unfold zero. by rewrite Qcplus_0_l.
Qed.

(** ** One-hot masks *)

Lemma zip_smul_one_hot (p : list scalar) (k : nat) (a : Qc) :
  finite_row p → p !! k = Some (Fin a) →
  zip_with smul p (one_hot (length p) k) = <[k := Fin a]> (replicate (length p) zero).
Proof.
  unfold one_hot. intros Hp. revert k.
  induction Hp as [|x p Hx Hp IH]; intros k Hk; [done|].
  destruct k as [|k]; simpl in *.
  - injection Hk as ->. f_equal; [apply smul_one_r|].
    by apply zip_smul_zeros_finite.
  - destruct x as [q| |]; try discriminate.
    rewrite smul_Fin_zero. f_equal. by apply IH.
Qed.

Lemma ssum_single (n k : nat) (a : Qc) :
  k < n → ssum (<[k := Fin a]> (replicate n zero)) = Fin a.
Proof.
  revert k. induction n as [|n IH]; intros k Hk; [lia|].
  destruct k as [|k]; unfold ssum in *; simpl.
  - fold (ssum (replicate n zero)). rewrite ssum_zeros. simpl.
    by rewrite Qcplus_0_r.
  - rewrite IH by lia. simpl. by rewrite Qcplus_0_l.
Qed.

Lemma normalised_single (n k : nat) (a : Qc) :
  k < n → a ≠ 0%Qc →
  normalised (<[k := Fin a]> (replicate n zero)) = one_hot n k.
Proof.
  intros Hk Ha. unfold normalised, one_hot. rewrite ssum_single by done.
  change (map ?f ?l) with (f <$> l).
  rewrite list_fmap_insert, fmap_replicate.
  by rewrite sdiv_self, sdiv_zero_l.
Qed.

(** ** Claims about [_mask_unavailable_actions] *)

(** A row tensor [(1, A)] and a vector tensor [(A)] of integers. *)
Definition row (l : list Z) : tensor := Tensor [1; length l] (map of_Z l).
Definition vec (l : list Z) : tensor := Tensor [length l] (map of_Z l).

(** C9.  The per-example renormalisation needs a batch of one example.
    For a policy of shape [(B, A)] and a mask of shape [(A)] or [(B, A)]:
    with [B = 1] every entry of the masked row is divided by the sum of that
    row; with [1 < B] and [B <> A] the in-place division by the [(B)]-shaped
    sums does not broadcast and raises a [RuntimeError]. *)
Theorem renormalisation_needs_batch_of_one
    (B A : nat) (p m : list scalar) (shm : list nat) :
  length p = B * A →
  (shm = [A] ∧ length m = A) ∨ (shm = [B; A] ∧ length m = B * A) →
  (B = 1 →
     ActorNet._mask_unavailable_actions (Tensor [B; A] p) (Tensor shm m)
     = Ok (Tensor [1; A] (normalised (zip_with smul p m))))
  ∧ (1 < B → B ≠ A →
     ActorNet._mask_unavailable_actions (Tensor [B; A] p) (Tensor shm m)
     = Err RuntimeError).
Proof.
  intros Hp Hsh. split.
  - intros ->. apply mask_batch1; [lia| |]; destruct Hsh as [[-> ?]|[-> ?]]; auto; lia.
  - intros HB HBA. unfold ActorNet._mask_unavailable_actions, mul, binop.
    simpl shape.
    assert (Hb : broadcast_shapes [B; A] shm = Some [B; A]).
    { destruct Hsh as [[-> _]|[-> _]]; unfold broadcast_shapes, pad_shape; simpl;
        by rewrite ?broadcast_dim_1_r, ?broadcast_dim_same. }
    rewrite Hb. cbn [mbind result_bind]. unfold sum1. simpl shape.
    cbn [mbind result_bind]. unfold div_, binop_. simpl shape.
    unfold broadcast_shapes, pad_shape. simpl.
    rewrite broadcast_dim_1_r. unfold broadcast_dim.
    repeat case_decide; try done; try lia.
    congruence.
Qed.

Lemma renormalisation_needs_batch_of_one_witness :
  ActorNet._mask_unavailable_actions
    (Tensor [2; 3] (map of_Z [1; 2; 5; 1; 1; 1]%Z)) (vec [1; 1; 0]%Z)
  = Err RuntimeError.
Proof.
  refine (proj2 (renormalisation_needs_batch_of_one 2 3
                   (map of_Z [1; 2; 5; 1; 1; 1]%Z) (map of_Z [1; 1; 0]%Z) [3] _ _) _ _).
  - reflexivity.
  - left. split; reflexivity.
  - lia.
  - lia.
Defined.

(** When the batch size equals the number of actions the division goes
    through, but entry [(i, j)] is divided by the sum of example [j]. *)
Example renormalisation_square_batch :
  ActorNet._mask_unavailable_actions
    (Tensor [2; 2] (map of_Z [1; 2; 5; 1]%Z)) (vec [1; 1]%Z)
  = Ok (Tensor [2; 2] [sdiv (of_Z 1) (of_Z 3); sdiv (of_Z 2) (of_Z 6);
                       sdiv (of_Z 5) (of_Z 3); sdiv (of_Z 1) (of_Z 6)]).
Proof. compute_done. Qed.

(** C5, as the spec states it: whenever every entry of the mask is zero,
    the masking step raises nothing and returns a result without a finite
    entry. *)
Definition all_invalid_mask_is_silent (policy valid_actions : tensor) : Prop :=
  Forall (λ x, x = zero) (data valid_actions) →
  ∃ out, ActorNet._mask_unavailable_actions policy valid_actions = Ok out
         ∧ Forall (λ x, is_finite x = false) (data out).

Lemma all_invalid_mask_two_examples :
  ActorNet._mask_unavailable_actions
    (Tensor [2; 3] (map of_Z [1; 2; 5; 1; 1; 1]%Z)) (vec [0; 0; 0]%Z)
  = Err RuntimeError.
Proof. compute_done. Qed.

(** Two examples and three actions, no action valid: the sums of the two
    masked rows have shape [(2)], the in-place division of the [(2, 3)]
    masked policy by them does not broadcast, and the call raises
    [RuntimeError]. *)
Lemma all_invalid_mask_is_silent_counterexample :
  ¬ all_invalid_mask_is_silent
      (Tensor [2; 3] (map of_Z [1; 2; 5; 1; 1; 1]%Z)) (vec [0; 0; 0]%Z).
Proof.
  intros Hclaim. destruct Hclaim as (out & Hout & _).
  { repeat constructor. }
  rewrite all_invalid_mask_two_examples in Hout. discriminate Hout.
Qed.

(** C5, amended.  One example, a policy of shape [(1, A)], whose mask of
    zeros and ones sums to zero: the masking step raises nothing and
    returns a row in which every entry is NaN; for finite raw outputs the
    divisor, the sum of the masked row, is zero. *)
Theorem all_invalid_mask_gives_nan
    (A : nat) (p m : list scalar) (shm : list nat) :
  length p = A → length m = A → shm = [A] ∨ shm = [1; A] →
  binary m → ssum m = zero →
  ∃ out, ActorNet._mask_unavailable_actions (Tensor [1; A] p) (Tensor shm m)
         = Ok (Tensor [1; A] out)
         ∧ length out = A
         ∧ Forall (λ x, x = NaN) out
         ∧ (finite_row p → ssum (zip_with smul p m) = zero).
Proof.
  intros Hp Hm Hsh Hbin Hsum.
  rewrite (mask_batch1 A) by done. eexists. split; [done|].
  rewrite (binary_sum_zero m Hbin Hsum), Hm, <-Hp.
  pose proof (zip_smul_zeros p) as Hz. split_and!.
  - unfold normalised. by rewrite length_map, length_zip_with, length_replicate, Nat.min_id.
  - unfold normalised. apply Forall_map. eapply Forall_impl; [exact Hz|].
    intros x Hx. simpl. apply sdiv_zero_or_nan; [done|].
    by apply ssum_zero_or_nan.
  - intros Hfin. rewrite zip_smul_zeros_finite by done. apply ssum_zeros.
Qed.

Lemma all_invalid_mask_gives_nan_witness :
  ∃ out, ActorNet._mask_unavailable_actions (row [3; -1; 4]%Z) (vec [0; 0; 0]%Z)
         = Ok (Tensor [1; 3] out)
         ∧ length out = 3
         ∧ Forall (λ x, x = NaN) out
         ∧ (finite_row (map of_Z [3; -1; 4]%Z)
            → ssum (zip_with smul (map of_Z [3; -1; 4]%Z) (map of_Z [0; 0; 0]%Z)) = zero).
Proof.
  apply (all_invalid_mask_gives_nan 3 (map of_Z [3; -1; 4]%Z) (map of_Z [0; 0; 0]%Z) [3]).
  - reflexivity.
  - reflexivity.
  - left. reflexivity.
  - unfold binary. repeat constructor; by left.
  - reflexivity.
Defined.







(** C6, as the spec states it: with the one-hot mask at index [k] the
    output is the one-hot row at [k], whatever the raw outputs [p] are. *)
Definition one_hot_mask_gives_one_hot (A k : nat) (p : list scalar) : Prop :=
  ActorNet._mask_unavailable_actions (Tensor [1; A] p) (Tensor [A] (one_hot A k))
  = Ok (Tensor [1; A] (one_hot A k)).

(** The raw output of the only valid action is 0: the masked row is all
    zero and the output is NaN everywhere. *)
Lemma one_hot_mask_gives_one_hot_counterexample :
  ¬ one_hot_mask_gives_one_hot 6 5 (map of_Z [1; 2; 3; 4; 5; 0]%Z).
Proof.
  unfold one_hot_mask_gives_one_hot.
  assert (ActorNet._mask_unavailable_actions
            (Tensor [1; 6] (map of_Z [1; 2; 3; 4; 5; 0]%Z)) (Tensor [6] (one_hot 6 5))
          = Ok (Tensor [1; 6] (replicate 6 NaN))) as -> by compute_done.
  discriminate.
Qed.

(** C6, amended.  With the one-hot mask at index [k], finite raw outputs
    and a raw output at [k] that is not zero, the output is exactly the
    one-hot row at [k]. *)
Theorem one_hot_mask_gives_one_hot_nonzero
    (A k : nat) (p : list scalar) (a : Qc) (shm : list nat) :
  length p = A → shm = [A] ∨ shm = [1; A] →
  finite_row p → p !! k = Some (Fin a) → a ≠ 0%Qc →
  ActorNet._mask_unavailable_actions (Tensor [1; A] p) (Tensor shm (one_hot A k))
  = Ok (Tensor [1; A] (one_hot A k)).
Proof.
  intros Hp Hsh Hfin Hk Ha. subst A.
  rewrite (mask_batch1 (length p)); [|done| |done].
  - rewrite (zip_smul_one_hot p k a) by done.
    rewrite normalised_single; [done| |done]. by apply lookup_lt_Some in Hk.
  - unfold one_hot. by rewrite length_insert, length_replicate.
Qed.

Lemma one_hot_mask_gives_one_hot_nonzero_witness :
  ActorNet._mask_unavailable_actions
    (Tensor [1; 6] (map of_Z [1; 2; 3; 4; 5; -7]%Z)) (Tensor [6] (one_hot 6 5))
  = Ok (Tensor [1; 6] (one_hot 6 5)).
Proof.
  apply (one_hot_mask_gives_one_hot_nonzero 6 5
           (map of_Z [1; 2; 3; 4; 5; -7]%Z) (Q2Qc (inject_Z (-7)))).
  - reflexivity.
  - left. reflexivity.
  - repeat constructor.
  - reflexivity.
  - intros Heq. discriminate (f_equal this Heq).
Defined.

(** ** What the constructors build *)

Section built.
Context `{arglist} `{init_schemes}.

(** The two-stage convolution stack with its four tensors at [l .. 3 + l]. *)
Definition conv_stack (cin : nat) (l : loc) : layer :=
  Sequential [Conv2d cin 16 5 1 2 l (1 + l); ReLU;
              Conv2d 16 32 3 1 1 (2 + l) (3 + l); ReLU].

(** The dense block with its two tensors at [l] and [1 + l]. *)
Definition dense_block (l : loc) : layer :=
  Sequential [Linear NUM_ACTIONS 32 l (1 + l); ReLU; Dense2Conv].

Definition globals_at (l : loc) : globals :=
  Globals (conv_stack minimap_channels l) (conv_stack screen_channels (4 + l))
          (dense_block (8 + l)).

Definition actor_at (G : globals) (l : loc) : module :=
  [("minimap_conv_layers", conv_minimap G);
   ("screen_conv_layers", conv_screen G);
   ("nonspatial_dense", dense_nonspatial G);
   ("layer_hidden", Sequential [Conv2d (32 * 3) 64 3 1 1 l (1 + l); ReLU]);
   ("layer_action",
    Sequential [Conv2d 64 1 1 1 0 (2 + l) (3 + l); ReLU; Flatten;
                Linear (FEAT2DSIZE * FEAT2DSIZE) NUM_ACTIONS (4 + l) (5 + l)]);
   ("layer_screen1", Conv2d 64 1 1 1 0 (6 + l) (7 + l));
   ("layer_screen2", Conv2d 64 1 1 1 0 (8 + l) (9 + l))].

Definition critic_at (G : globals) (l : loc) : module :=
  [("minimap_conv_layers", conv_minimap G);
   ("screen_conv_layers", conv_screen G);
   ("nonspatial_dense", dense_nonspatial G);
   ("conv_action", conv_stack 2 l);
   ("action_dense", dense_block (4 + l));
   ("layer_hidden",
    Sequential [Conv2d (32 * 5) 64 3 1 1 (6 + l) (7 + l); ReLU;
                Conv2d 64 1 1 1 0 (8 + l) (9 + l); ReLU; Flatten]);
   ("layer_value", Linear (FEAT2DSIZE * FEAT2DSIZE) 1 (10 + l) (11 + l))].

(** *** Running the constructors *)

Lemma bind_run {A B} (m : M A) (f : A → M B) (s s' : state) (a : A) :
  m s = (a, s') → (m ≫= f) s = f a s'.
Proof. intros E. unfold mbind, M_bind. by rewrite E. Qed.

(** [s'] is [s] with [k] tensors allocated and the generator advanced. *)
Definition grows (s s' : state) (k : nat) : Prop :=
  ∃ σnew, length σnew = k ∧ store s' = store s ++ σnew ∧ (rng s ≤ rng s')%N.

Lemma grows_trans (s s1 s2 : state) (k1 k2 : nat) :
  grows s s1 k1 → grows s1 s2 k2 → grows s s2 (k1 + k2).
Proof.
  intros (σ1 & H1 & E1 & R1) (σ2 & H2 & E2 & R2). exists (σ1 ++ σ2).
  split_and!; [rewrite length_app; lia | by rewrite E2, E1, app_assoc | lia].
Qed.

Lemma grows_length (s s' : state) (k : nat) :
  grows s s' k → length (store s') = k + length (store s).
Proof. intros (σ1 & H1 & E1 & _). rewrite E1, length_app. lia. Qed.

Lemma new_parameter_run (sh : list nat) (s : state) :
  ∃ s', new_parameter sh s = (length (store s), s') ∧ grows s s' 1.
Proof.
  eexists. split; [reflexivity|]. eexists. cbn [store rng].
  split_and!; [|reflexivity|lia]. done.
Qed.

Lemma new_Conv2d_run (cin cout k st pad : nat) (s : state) (n : nat) :
  length (store s) = n →
  ∃ s', new_Conv2d cin cout k st pad s = (Conv2d cin cout k st pad n (1 + n), s')
        ∧ grows s s' 2.
Proof.
  intros <-. unfold new_Conv2d.
  destruct (new_parameter_run [cout; cin; k; k] s) as (s1 & E1 & G1).
  destruct (new_parameter_run [cout] s1) as (s2 & E2 & G2).
  exists s2. split; [|by apply (grows_trans s s1 s2 1 1)].
  rewrite (bind_run _ _ _ _ _ E1), (bind_run _ _ _ _ _ E2).
  by rewrite (grows_length _ _ _ G1).
Qed.

Lemma new_Linear_run (fin fout : nat) (s : state) (n : nat) :
  length (store s) = n →
  ∃ s', new_Linear fin fout s = (Linear fin fout n (1 + n), s') ∧ grows s s' 2.
Proof.
  intros <-. unfold new_Linear.
  destruct (new_parameter_run [fout; fin] s) as (s1 & E1 & G1).
  destruct (new_parameter_run [fout] s1) as (s2 & E2 & G2).
  exists s2. split; [|by apply (grows_trans s s1 s2 1 1)].
  rewrite (bind_run _ _ _ _ _ E1), (bind_run _ _ _ _ _ E2).
  by rewrite (grows_length _ _ _ G1).
Qed.

Lemma conv_stack_run (cin : nat) (s : state) (n : nat) :
  length (store s) = n →
  ∃ s', (c1 ← new_Conv2d cin 16 5 1 2;
         c2 ← new_Conv2d 16 32 3 1 1;
         mret (Sequential [c1; ReLU; c2; ReLU])) s = (conv_stack cin n, s')
        ∧ grows s s' 4.
Proof.
  intros Hn.
  destruct (new_Conv2d_run cin 16 5 1 2 s n Hn) as (s1 & E1 & G1).
  destruct (new_Conv2d_run 16 32 3 1 1 s1 (2 + n)) as (s2 & E2 & G2).
  { by rewrite (grows_length _ _ _ G1), Hn. }
  exists s2. split; [|by apply (grows_trans s s1 s2 2 2)].
  by rewrite (bind_run _ _ _ _ _ E1), (bind_run _ _ _ _ _ E2).
Qed.

Lemma dense_block_run (s : state) (n : nat) :
  length (store s) = n →
  ∃ s', (l ← new_Linear NUM_ACTIONS 32;
         mret (Sequential [l; ReLU; Dense2Conv])) s = (dense_block n, s')
        ∧ grows s s' 2.
Proof.
  intros Hn.
  destruct (new_Linear_run NUM_ACTIONS 32 s n Hn) as (s1 & E1 & G1).
  exists s1. split; [|done]. by rewrite (bind_run _ _ _ _ _ E1).
Qed.

Lemma import_run (s : state) :
  ∃ s', import s = (globals_at (length (store s)), s') ∧ grows s s' 10.
Proof.
  unfold import.
  destruct (conv_stack_run minimap_channels s _ eq_refl) as (s1 & E1 & G1).
  destruct (conv_stack_run screen_channels s1 (4 + length (store s)))
    as (s2 & E2 & G2); [by rewrite (grows_length _ _ _ G1)|].
  pose proof (grows_trans _ _ _ _ _ G1 G2) as G12.
  destruct (dense_block_run s2 (8 + length (store s)))
    as (s3 & E3 & G3); [by rewrite (grows_length _ _ _ G12)|].
  exists s3. split; [|by apply (grows_trans _ _ _ _ _ G12 G3)].
  by rewrite (bind_run _ _ _ _ _ E1), (bind_run _ _ _ _ _ E2),
             (bind_run _ _ _ _ _ E3).
Qed.

Lemma init_then_ret (self : module) (s : state) :
  (apply_module init_weights self ;; mret self) s
  = (self, (apply_module init_weights self s).2).
Proof.
  unfold mbind, M_bind, mret, M_ret.
  by destruct (apply_module init_weights self s).
Qed.

Lemma ActorNet_alloc (G : globals) (s : state) :
  ∃ sa, grows s sa 10
        ∧ ActorNet.__init__ G s
          = (actor_at G (length (store s)),
             (apply_module init_weights (actor_at G (length (store s))) sa).2).
Proof.
  unfold ActorNet.__init__. set (n := length (store s)).
  destruct (new_Conv2d_run (32 * 3) 64 3 1 1 s n eq_refl) as (s1 & E1 & G1).
  destruct (new_Conv2d_run 64 1 1 1 0 s1 (2 + n)) as (s2 & E2 & G2);
    [by rewrite (grows_length _ _ _ G1)|].
  pose proof (grows_trans _ _ _ _ _ G1 G2) as G12.
  destruct (new_Linear_run (FEAT2DSIZE * FEAT2DSIZE) NUM_ACTIONS s2 (4 + n))
    as (s3 & E3 & G3); [by rewrite (grows_length _ _ _ G12)|].
  pose proof (grows_trans _ _ _ _ _ G12 G3) as G13.
  destruct (new_Conv2d_run 64 1 1 1 0 s3 (6 + n)) as (s4 & E4 & G4);
    [by rewrite (grows_length _ _ _ G13)|].
  pose proof (grows_trans _ _ _ _ _ G13 G4) as G14.
  destruct (new_Conv2d_run 64 1 1 1 0 s4 (8 + n)) as (s5 & E5 & G5);
    [by rewrite (grows_length _ _ _ G14)|].
  pose proof (grows_trans _ _ _ _ _ G14 G5) as G15.
  exists s5. split; [done|].
  rewrite (bind_run _ _ s s1 (Sequential [Conv2d (32 * 3) 64 3 1 1 n (1 + n); ReLU]));
    [|by rewrite (bind_run _ _ _ _ _ E1)].
  rewrite (bind_run _ _ s1 s3
             (Sequential [Conv2d 64 1 1 1 0 (2 + n) (3 + n); ReLU; Flatten;
                          Linear (FEAT2DSIZE * FEAT2DSIZE) NUM_ACTIONS (4 + n) (5 + n)]));
    [|by rewrite (bind_run _ _ _ _ _ E2), (bind_run _ _ _ _ _ E3)].
  rewrite (bind_run _ _ _ _ _ E4), (bind_run _ _ _ _ _ E5).
  apply init_then_ret.
Qed.

Lemma CriticNet_alloc (G : globals) (s : state) :
  ∃ sa, grows s sa 12
        ∧ CriticNet.__init__ G s
          = (critic_at G (length (store s)),
             (apply_module init_weights (critic_at G (length (store s))) sa).2).
Proof.
  unfold CriticNet.__init__. set (n := length (store s)).
  destruct (conv_stack_run 2 s n eq_refl) as (s1 & E1 & G1).
  destruct (dense_block_run s1 (4 + n)) as (s2 & E2 & G2);
    [by rewrite (grows_length _ _ _ G1)|].
  pose proof (grows_trans _ _ _ _ _ G1 G2) as G12.
  destruct (new_Conv2d_run (32 * 5) 64 3 1 1 s2 (6 + n)) as (s3 & E3 & G3);
    [by rewrite (grows_length _ _ _ G12)|].
  pose proof (grows_trans _ _ _ _ _ G12 G3) as G13.
  destruct (new_Conv2d_run 64 1 1 1 0 s3 (8 + n)) as (s4 & E4 & G4);
    [by rewrite (grows_length _ _ _ G13)|].
  pose proof (grows_trans _ _ _ _ _ G13 G4) as G14.
  destruct (new_Linear_run (FEAT2DSIZE * FEAT2DSIZE) 1 s4 (10 + n))
    as (s5 & E5 & G5); [by rewrite (grows_length _ _ _ G14)|].
  pose proof (grows_trans _ _ _ _ _ G14 G5) as G15.
  exists s5. split; [done|].
  rewrite (bind_run _ _ _ _ _ E1), (bind_run _ _ _ _ _ E2).
  rewrite (bind_run _ _ s2 s4
             (Sequential [Conv2d (32 * 5) 64 3 1 1 (6 + n) (7 + n); ReLU;
                          Conv2d 64 1 1 1 0 (8 + n) (9 + n); ReLU; Flatten]));
    [|by rewrite (bind_run _ _ _ _ _ E3), (bind_run _ _ _ _ _ E4)].
  rewrite (bind_run _ _ _ _ _ E5).
  apply init_then_ret.
Qed.

(** *** Initialisation overwrites every parameter of the module *)

(** Induction on module objects, through the children of a container. *)
Lemma layer_nested_ind (P : layer → Prop) :
  (∀ cin cout k st pad w b, P (Conv2d cin cout k st pad w b)) →
  (∀ fin fout w b, P (Linear fin fout w b)) →
  P ReLU → P Flatten → P Dense2Conv →
  (∀ children, Forall P children → P (Sequential children)) →
  ∀ m, P m.
Proof.
  intros Hconv Hlin Hrelu Hflat Hd2c Hseq.
  fix IH 1. intros [cin cout k st pad w b|fin fout w b| | | |children];
    [apply Hconv | apply Hlin | apply Hrelu | apply Hflat | apply Hd2c |].
  apply Hseq. induction children as [|m ms IHms]; constructor; [apply IH | apply IHms].
Qed.

Fixpoint reinit_all (ls : list loc) : M unit :=
  match ls with
  | [] => mret tt
  | l :: ls' => reinit l ;; reinit_all ls'
  end.

Lemma M_unit_eta (m : M unit) (s : state) : m s = (tt, (m s).2).
Proof. by destruct (m s) as [[] s']. Qed.

Lemma reinit_all_app (ls1 ls2 : list loc) (s : state) :
  reinit_all (ls1 ++ ls2) s = (reinit_all ls1 ;; reinit_all ls2) s.
Proof.
  revert s. induction ls1 as [|l ls1 IH]; intros s; [done|].
  cbn [app reinit_all]. unfold mbind, M_bind in *.
  destruct (reinit l s) as [u s1]. apply IH.
Qed.

Lemma apply_init_weights (m : layer) (s : state) :
  apply init_weights m s = reinit_all (parameters m) s.
Proof.
  revert s. induction m as [cin cout k st pad w b|fin fout w b| | | |children IH]
    using layer_nested_ind; intros s; cbn [apply init_weights parameters reinit_all].
  - unfold mbind, M_bind. destruct (reinit w s) as [u s1].
    by rewrite (M_unit_eta (reinit b) s1).
  - unfold mbind, M_bind. destruct (reinit w s) as [u s1].
    by rewrite (M_unit_eta (reinit b) s1).
  - done.
  - done.
  - done.
  - match goal with
    | |- (?go children ≫= _) s = reinit_all (?gp children) s =>
        assert (∀ s, go children s = reinit_all (gp children) s) as Hgo
    end.
    { clear s. induction IH as [|m ms Hm _ IHms]; intros s; [done|].
      rewrite reinit_all_app. unfold mbind, M_bind.
      rewrite Hm. destruct (reinit_all (parameters m) s) as [u s1].
      apply IHms. }
    unfold mbind, M_bind. rewrite Hgo.
    by destruct (reinit_all _ s) as [[] s1].
Qed.

Lemma apply_module_init_weights (self : module) (s : state) :
  apply_module init_weights self s = reinit_all (module_parameters self) s.
Proof.
  revert s. induction self as [|[k m] self IH]; intros s; [done|].
  cbn [apply_module]. unfold module_parameters. cbn [flat_map snd].
  rewrite reinit_all_app. unfold mbind, M_bind.
  rewrite apply_init_weights. destruct (reinit_all (parameters m) s) as [u s1].
  apply IH.
Qed.

(** The effect of initialising the tensors at [ls], one after the
    other: the store keeps its size, the generator only moves forward,
    tensors elsewhere are untouched, and each tensor at a location of
    [ls] is replaced by one of the same shape that the scheme produced
    at a generator position of this run. *)
Lemma reinit_all_spec (ls : list loc) (s : state) :
  let s' := (reinit_all ls s).2 in
  length (store s') = length (store s)
  ∧ (rng s ≤ rng s')%N
  ∧ (∀ l, l ∉ ls → store s' !! l = store s !! l)
  ∧ (∀ l t, l ∈ ls → store s !! l = Some t →
       ∃ k, (rng s ≤ k)%N ∧ (k + numelN (shape t) ≤ rng s')%N
            ∧ store s' !! l = Some (Tensor (shape t) (init_scheme k (shape t)))).
Proof.
  revert s. induction ls as [|l0 ls IH]; intros s; cbn zeta.
  { cbn. split_and!; [done|lia|done|]. intros l t Hl. by apply elem_of_nil in Hl. }
  cbn [reinit_all]. unfold mbind, M_bind.
  destruct (reinit l0 s) as [u s1] eqn:Hre.
  destruct (IH s1) as (Hlen & Hrng & Hout & Hin). cbn zeta in *.
  assert (Hs1 : length (store s1) = length (store s) ∧ (rng s ≤ rng s1)%N
                ∧ (∀ l, l ≠ l0 → store s1 !! l = store s !! l)
                ∧ (∀ t, store s !! l0 = Some t →
                     store s1 !! l0 = Some (Tensor (shape t) (init_scheme (rng s) (shape t)))
                     ∧ rng s1 = (rng s + numelN (shape t))%N)).
  { unfold reinit in Hre. destruct (store s !! l0) as [t0|] eqn:Hl0.
    - injection Hre as _ <-. cbn [store rng]. split_and!.
      + by rewrite length_insert.
      + lia.
      + intros l Hne. by rewrite list_lookup_insert_ne.
      + intros t [= <-]. split; [|done].
        apply list_lookup_insert_eq. by apply lookup_lt_Some in Hl0.
    - injection Hre as _ <-. split_and!; [done|lia|done|done]. }
  destruct Hs1 as (Hlen1 & Hrng1 & Hne1 & Heq1).
  split_and!.
  - congruence.
  - lia.
  - intros l Hl. apply not_elem_of_cons in Hl as [Hne Hl].
    rewrite Hout by done. by apply Hne1.
  - intros l t Hl Hlt. destruct (decide (l ∈ ls)) as [Hls|Hls].
    + destruct (decide (l = l0)) as [->|Hne].
      * destruct (Heq1 t Hlt) as [Hst1 _].
        destruct (Hin l0 _ Hls Hst1) as (k & Hk1 & Hk2 & Hk3).
        exists k. split_and!; [lia|done|done].
      * rewrite <-(Hne1 l Hne) in Hlt.
        destruct (Hin l t Hls Hlt) as (k & Hk1 & Hk2 & Hk3).
        exists k. split_and!; [lia|done|done].
    + apply elem_of_cons in Hl as [->|Hl]; [|done].
      destruct (Heq1 t Hlt) as [Hst1 Hr1].
      exists (rng s). split_and!; [lia|lia|]. by rewrite Hout.
Qed.

(** *** Which tensors a network holds *)

(** The tensors of the three module-level encoders. *)
Definition encoder_parameters (G : globals) : list loc :=
  parameters (conv_minimap G) ++ parameters (conv_screen G)
  ++ parameters (dense_nonspatial G).

Lemma module_parameters_actor_at (G : globals) (n : loc) :
  module_parameters (actor_at G n) = encoder_parameters G ++ seq n 10.
Proof.
  unfold module_parameters, encoder_parameters. cbn. by rewrite <-!app_assoc.
Qed.

Lemma module_parameters_critic_at (G : globals) (n : loc) :
  module_parameters (critic_at G n) = encoder_parameters G ++ seq n 12.
Proof.
  unfold module_parameters, encoder_parameters. cbn. by rewrite <-!app_assoc.
Qed.

(** A constructor that allocates [σnew] and then initialises [self]:
    every tensor of [self] that was in the store before is overwritten. *)
Lemma init_overwrites (self : module) (s sa : state) (k : nat)
    (l : loc) (t : tensor) :
  let s' := (apply_module init_weights self sa).2 in
  grows s sa k → l ∈ module_parameters self → store s !! l = Some t →
  length (store s') = k + length (store s)
  ∧ ∃ p, (rng s ≤ p)%N ∧ (p + numelN (shape t) ≤ rng s')%N
         ∧ store s' !! l = Some (Tensor (shape t) (init_scheme p (shape t))).
Proof.
  intros s' Hg Hl Ht. subst s'. rewrite apply_module_init_weights.
  destruct (reinit_all_spec (module_parameters self) sa)
    as (Hlen & Hrng & _ & Hin). cbn zeta in *.
  split; [by rewrite Hlen, (grows_length _ _ _ Hg)|].
  destruct Hg as (σnew & _ & Hst & Hr).
  destruct (Hin l t Hl) as (p & Hp1 & Hp2 & Hp3).
  { rewrite Hst. by apply lookup_app_l_Some. }
  exists p. split_and!; [lia|done|done].
Qed.

Lemma ActorNet_init_overwrites (G : globals) (s s' : state) (actor : module)
    (l : loc) (t : tensor) :
  ActorNet.__init__ G s = (actor, s') →
  l ∈ encoder_parameters G → store s !! l = Some t →
  actor = actor_at G (length (store s))
  ∧ length (store s') = 10 + length (store s)
  ∧ ∃ p, (rng s ≤ p)%N ∧ (p + numelN (shape t) ≤ rng s')%N
         ∧ store s' !! l = Some (Tensor (shape t) (init_scheme p (shape t))).
Proof.
  intros Hinit Hl Ht.
  destruct (ActorNet_alloc G s) as (sa & Hg & Heq).
  rewrite Heq in Hinit. injection Hinit as <- <-.
  split; [done|].
  apply (init_overwrites (actor_at G (length (store s))) s sa 10 l t Hg); [|done].
  rewrite module_parameters_actor_at. apply elem_of_app. by left.
Qed.

Lemma CriticNet_init_overwrites (G : globals) (s s' : state) (critic : module)
    (l : loc) (t : tensor) :
  CriticNet.__init__ G s = (critic, s') →
  l ∈ encoder_parameters G → store s !! l = Some t →
  critic = critic_at G (length (store s))
  ∧ length (store s') = 12 + length (store s)
  ∧ ∃ p, (rng s ≤ p)%N ∧ (p + numelN (shape t) ≤ rng s')%N
         ∧ store s' !! l = Some (Tensor (shape t) (init_scheme p (shape t))).
Proof.
  intros Hinit Hl Ht.
  destruct (CriticNet_alloc G s) as (sa & Hg & Heq).
  rewrite Heq in Hinit. injection Hinit as <- <-.
  split; [done|].
  apply (init_overwrites (critic_at G (length (store s))) s sa 12 l t Hg); [|done].
  rewrite module_parameters_critic_at. apply elem_of_app. by left.
Qed.
Lemma apply_module_init_length (self : module) (s : state) :
  length (store (apply_module init_weights self s).2) = length (store s).
Proof.
  rewrite apply_module_init_weights.
  by destruct (reinit_all_spec (module_parameters self) s) as (Hlen & _).
Qed.

Lemma ActorNet_init_built (G : globals) (s s' : state) (actor : module) :
  ActorNet.__init__ G s = (actor, s') →
  actor = actor_at G (length (store s)) ∧ length (store s') = 10 + length (store s).
Proof.
  intros Hinit. destruct (ActorNet_alloc G s) as (sa & Hg & Heq).
  rewrite Heq in Hinit.
  pose proof (f_equal fst Hinit) as H1. pose proof (f_equal snd Hinit) as H2.
  cbn [fst snd] in H1, H2. subst actor s'. split; [done|].
  by rewrite apply_module_init_length, (grows_length _ _ _ Hg).
Qed.

Lemma CriticNet_init_built (G : globals) (s s' : state) (critic : module) :
  CriticNet.__init__ G s = (critic, s') →
  critic = critic_at G (length (store s)) ∧ length (store s') = 12 + length (store s).
Proof.
  intros Hinit. destruct (CriticNet_alloc G s) as (sa & Hg & Heq).
  rewrite Heq in Hinit.
  pose proof (f_equal fst Hinit) as H1. pose proof (f_equal snd Hinit) as H2.
  cbn [fst snd] in H1, H2. subst critic s'. split; [done|].
  by rewrite apply_module_init_length, (grows_length _ _ _ Hg).
Qed.
End built.

(** ** Shapes through the layers *)

(** A well-formed tensor of a given shape. *)
Definition has_shape (sh : list nat) (t : tensor) : Prop := shape t = sh ∧ wf t.

(** Calling [m] on any tensor of shape [sh] succeeds and gives a tensor of
    shape [sh']. *)
Definition maps `{arglist} (σ : list tensor) (m : layer) (sh sh' : list nat) : Prop :=
  ∀ x, has_shape sh x → ∃ y, call σ m x = Ok y ∧ has_shape sh' y.

(** The [i]-th example of a batch: block [i] of the storage. *)
Definition example (t : tensor) (i : nat) : list scalar :=
  chunk (numel (drop 1 (shape t))) i (data t).

Lemma length_flat_map_seq {B} (f : nat → list B) (n c : nat) :
  (∀ i, length (f i) = c) → length (flat_map f (seq 0 n)) = n * c.
Proof.
  intros Hf. rewrite (flat_map_constant_length (c := c)); [by rewrite length_seq|].
  intros i _. apply Hf.
Qed.

Lemma conv_out_same (h k pad : nat) :
  k = 2 * pad + 1 → 0 < h → conv_out h k 1 pad = h.
Proof. intros -> Hh. unfold conv_out. rewrite Nat.div_1_r. lia. Qed.

Section shapes.
Context `{arglist}.
Variable σ : list tensor.

Lemma maps_Conv2d_same (cin cout k pad : nat) (w b : loc) (n h wd : nat) :
  k = 2 * pad + 1 → 0 < h → 0 < wd →
  maps σ (Conv2d cin cout k 1 pad w b) [n; cin; h; wd] [n; cout; h; wd].
Proof.
  intros Hk Hh Hw x [Hsh Hwf]. cbn [call]. unfold conv2d. rewrite Hsh.
  rewrite decide_True by lia. rewrite !conv_out_same by done.
  eexists. split; [reflexivity|]. split; [done|].
  unfold wf. cbn [shape data numel foldr].
  rewrite (length_flat_map_seq _ n (cout * (h * wd))); [lia|]. intros i.
  rewrite (length_flat_map_seq _ cout (h * wd)); [lia|]. intros o.
  rewrite (length_flat_map_seq _ h wd); [lia|]. intros y.
  by rewrite length_map, length_seq.
Qed.

Lemma maps_ReLU (sh : list nat) : maps σ ReLU sh sh.
Proof.
  intros x [Hsh Hwf]. eexists. split; [reflexivity|]. split; [done|].
  unfold wf in *. cbn [shape data]. by rewrite length_map.
Qed.

Lemma maps_Linear (fin fout : nat) (w b : loc) (n : nat) :
  maps σ (Linear fin fout w b) [n; fin] [n; fout].
Proof.
  intros x [Hsh Hwf]. cbn [call]. unfold linear. rewrite Hsh.
  cbn [last length Nat.sub take app]. rewrite decide_True by done.
  eexists. split; [reflexivity|]. split; [done|].
  unfold wf. cbn [shape data numel foldr].
  rewrite (length_flat_map_seq _ _ fout); [lia|]. intros r.
  by rewrite length_map, length_seq.
Qed.

Lemma maps_Flatten (n m : nat) (rest : list nat) :
  numel rest = m → maps σ Flatten (n :: rest) [n; m].
Proof.
  intros <- x [Hsh Hwf]. cbn [call]. unfold flatten. rewrite Hsh.
  eexists. split; [reflexivity|]. split; [done|].
  unfold wf in *. rewrite Hsh in Hwf. cbn [shape data].
  rewrite !numel_cons in *. change (numel []) with 1. by rewrite Nat.mul_1_r.
Qed.

Lemma maps_Dense2Conv (n c : nat) :
  maps σ Dense2Conv [n; c] [n; c; FEAT2DSIZE; FEAT2DSIZE].
Proof.
  intros x [Hsh Hwf]. cbn [call]. unfold dense2conv. rewrite Hsh.
  eexists. split; [reflexivity|]. split; [done|].
  unfold wf in *. rewrite Hsh in Hwf. cbn [shape data numel foldr] in *.
  rewrite (flat_map_constant_length (c := FEAT2DSIZE * FEAT2DSIZE)).
  - rewrite Hwf. lia.
  - intros v _. apply length_replicate.
Qed.

Lemma maps_Sequential_nil (sh : list nat) : maps σ (Sequential []) sh sh.
Proof. intros x Hx. by exists x. Qed.

Lemma maps_Sequential_cons (m : layer) (ms : list layer) (sh sh1 sh2 : list nat) :
  maps σ m sh sh1 → maps σ (Sequential ms) sh1 sh2 →
  maps σ (Sequential (m :: ms)) sh sh2.
Proof.
  intros Hm Hms x Hx. destruct (Hm x Hx) as (y & Hy & Hysh).
  destruct (Hms y Hysh) as (z & Hz & Hzsh). exists z. split; [|done].
  cbn [call] in *. rewrite Hy. exact Hz.
Qed.

Lemma maps_conv_stack (cin : nat) (l : loc) (n h wd : nat) :
  0 < h → 0 < wd →
  maps σ (conv_stack cin l) [n; cin; h; wd] [n; 32; h; wd].
Proof.
  intros Hh Hw. unfold conv_stack.
  eapply maps_Sequential_cons; [by apply maps_Conv2d_same|].
  eapply maps_Sequential_cons; [apply maps_ReLU|].
  eapply maps_Sequential_cons; [by apply maps_Conv2d_same|].
  eapply maps_Sequential_cons; [apply maps_ReLU|].
  apply maps_Sequential_nil.
Qed.

Lemma maps_dense_block (l : loc) (n : nat) :
  maps σ (dense_block l) [n; NUM_ACTIONS] [n; 32; FEAT2DSIZE; FEAT2DSIZE].
Proof.
  unfold dense_block.
  eapply maps_Sequential_cons; [apply maps_Linear|].
  eapply maps_Sequential_cons; [apply maps_ReLU|].
  eapply maps_Sequential_cons; [apply maps_Dense2Conv|].
  apply maps_Sequential_nil.
Qed.
End shapes.

(** *** Concatenation along the channel axis *)

Section cat_channels.
Variables n h wd : nat.

Let batch (t : tensor) (c : nat) : Prop := has_shape [n; c; h; wd] t.

Lemma cat_check (t0 : tensor) (ts : list tensor) (cs : list nat) :
  shape t0 = [n; nth 1 (shape t0) 0; h; wd] →
  Forall2 batch ts cs →
  forallb (λ t, bool_decide (length (shape t) = length (shape t0)
                             ∧ take 1 (shape t) = take 1 (shape t0)
                             ∧ drop 2 (shape t) = drop 2 (shape t0))) ts = true.
Proof.
  intros Ht0. induction 1 as [|t c ts cs [Hsh _] _ IH]; [done|].
  cbn [forallb]. rewrite IH, andb_true_r. apply bool_decide_eq_true_2.
  by rewrite Hsh, Ht0.
Qed.

Lemma cat_channel_count (ts : list tensor) (cs : list nat) :
  Forall2 batch ts cs →
  sum_list (map (λ t, nth 1 (shape t) 0) ts) = sum_list cs.
Proof.
  induction 1 as [|t c ts cs [Hsh _] _ IH]; [done|].
  cbn [map sum_list sum_list_with]. rewrite Hsh. cbn [nth].
  unfold sum_list in *. by rewrite IH.
Qed.

Lemma length_example (t : tensor) (c i : nat) :
  batch t c → i < n → length (example t i) = c * numel [h; wd].
Proof.
  intros [Hsh Hwf] Hi. unfold example. rewrite Hsh. cbn [drop].
  rewrite numel_cons. apply length_chunk.
  unfold wf in Hwf. rewrite Hwf, Hsh, !numel_cons.
  change (numel [h; wd]) with (h * (wd * numel [])). nia.
Qed.

Lemma cat_blocks (ts : list tensor) (cs : list nat) (i : nat) :
  Forall2 batch ts cs →
  flat_map (λ t, chunk (nth 1 (shape t) 0 * numel [h; wd]) i (data t)) ts
  = flat_map (λ t, example t i) ts.
Proof.
  induction 1 as [|t c ts cs [Hsh _] _ IH]; [done|].
  cbn [flat_map]. rewrite IH. f_equal. unfold example. by rewrite Hsh.
Qed.

Lemma length_cat_blocks (ts : list tensor) (cs : list nat) (i : nat) :
  Forall2 batch ts cs → i < n →
  length (flat_map (λ t, example t i) ts) = sum_list cs * numel [h; wd].
Proof.
  intros Hts Hi. induction Hts as [|t c ts cs Ht _ IH]; [done|].
  cbn [flat_map]. rewrite length_app, IH, (length_example t c) by done.
  change (sum_list (c :: cs)) with (c + sum_list cs). nia.
Qed.

(** [torch.cat(ts, dim=1)] of batches over the same grid: the channel
    counts add up, and each example of the result is the examples of the
    inputs one after the other, in the order of the list. *)
Lemma cat_channels (ts : list tensor) (cs : list nat) :
  ts ≠ [] → Forall2 batch ts cs →
  ∃ y, cat ts 1 = Ok y
       ∧ has_shape [n; sum_list cs; h; wd] y
       ∧ ∀ i, i < n → example y i = flat_map (λ t, example t i) ts.
Proof.
  intros Hne Hts. destruct ts as [|t0 ts']; [done|]. clear Hne.
  assert (Ht0 : shape t0 = [n; nth 1 (shape t0) 0; h; wd]).
  { inversion Hts as [|? c ? ? [Hsh _]]; subst. by rewrite Hsh. }
  unfold cat. rewrite decide_True by (rewrite Ht0; cbn; lia).
  rewrite (cat_check t0 (t0 :: ts') cs Ht0 Hts).
  rewrite (cat_channel_count _ _ Hts).
  replace (take 1 (shape t0)) with [n] by (by rewrite Ht0).
  replace (drop 2 (shape t0)) with [h; wd] by (by rewrite Ht0).
  eexists. split; [reflexivity|].
  assert (Hdata : ∀ i, i < n →
            flat_map (λ t, chunk (nth 1 (shape t) 0 * numel [h; wd]) i (data t)) (t0 :: ts')
            = flat_map (λ t, example t i) (t0 :: ts')).
  { intros i _. by apply (cat_blocks _ cs). }
  split_and!.
  - split; [done|]. unfold wf. cbn [shape data app].
    rewrite (flat_map_constant_length (c := sum_list cs * numel [h; wd])).
    + rewrite length_seq, !numel_cons. change (numel []) with 1. lia.
    + intros i Hi%in_seq. change (numel [n]) with (n * 1) in Hi.
      rewrite Hdata by lia. apply length_cat_blocks; [done|lia].
  - intros i Hi. unfold example at 1. cbn [shape data app drop].
    change (numel [n]) with (n * 1). rewrite Nat.mul_1_r.
    rewrite (chunk_flat_map _ (numel [sum_list cs; h; wd]) n i); [by apply Hdata| |done].
    intros j Hj. rewrite Hdata by done. rewrite numel_cons.
    by apply length_cat_blocks.
Qed.
End cat_channels.

(** ** The forward pass of the critic *)

Section critic_forward.
Context `{arglist}.
Variables (σ : list tensor) (l0 l : loc) (N : nat).

(** Inputs of the architecture's fixed shapes, with [N] examples. *)
Definition fixed_observation (obs : observation) : Prop :=
  has_shape [N; minimap_channels; FEAT2DSIZE; FEAT2DSIZE] (minimap obs)
  ∧ has_shape [N; screen_channels; FEAT2DSIZE; FEAT2DSIZE] (screen obs)
  ∧ has_shape [N; NUM_ACTIONS] (nonspatial obs).

Definition fixed_action (act : action) : Prop :=
  has_shape [N; NUM_ACTIONS] (categorical act)
  ∧ has_shape [N; 1; FEAT2DSIZE; FEAT2DSIZE] (screen1 act)
  ∧ has_shape [N; 1; FEAT2DSIZE; FEAT2DSIZE] (screen2 act).

(** The fusion stage and the value layer of the critic built at [l]. *)
Definition critic_layer_hidden : layer :=
  Sequential [Conv2d (32 * 5) 64 3 1 1 (6 + l) (7 + l); ReLU;
              Conv2d 64 1 1 1 0 (8 + l) (9 + l); ReLU; Flatten].
Definition critic_layer_value : layer :=
  Linear (FEAT2DSIZE * FEAT2DSIZE) 1 (10 + l) (11 + l).

Lemma maps_critic_layer_hidden :
  0 < FEAT2DSIZE →
  maps σ critic_layer_hidden [N; 160; FEAT2DSIZE; FEAT2DSIZE]
       [N; FEAT2DSIZE * FEAT2DSIZE].
Proof.
  intros HF. unfold critic_layer_hidden.
  eapply maps_Sequential_cons; [by apply maps_Conv2d_same|].
  eapply maps_Sequential_cons; [apply maps_ReLU|].
  eapply maps_Sequential_cons; [by apply maps_Conv2d_same|].
  eapply maps_Sequential_cons; [apply maps_ReLU|].
  eapply maps_Sequential_cons; [|apply maps_Sequential_nil].
  apply maps_Flatten. rewrite !numel_cons. change (numel []) with 1. lia.
Qed.

Ltac step E := rewrite E; cbn [mbind result_bind].

(** The forward pass on inputs of the fixed shapes, step by step. *)
Lemma CriticNet_forward_run (obs : observation) (act : action) :
  0 < FEAT2DSIZE → fixed_observation obs → fixed_action act →
  let G := globals_at l0 in
  ∃ m s n a_spatial a_nonspatial sa q,
    call σ (conv_minimap G) (minimap obs) = Ok m
    ∧ call σ (conv_screen G) (screen obs) = Ok s
    ∧ call σ (dense_nonspatial G) (nonspatial obs) = Ok n
    ∧ (∃ x, cat [screen1 act; screen2 act] 1 = Ok x
            ∧ call σ (conv_stack 2 l) x = Ok a_spatial)
    ∧ call σ (dense_block (4 + l)) (categorical act) = Ok a_nonspatial
    ∧ Forall (has_shape [N; 32; FEAT2DSIZE; FEAT2DSIZE])
             [m; s; n; a_spatial; a_nonspatial]
    ∧ cat [m; s; n; a_spatial; a_nonspatial] 1 = Ok sa
    ∧ has_shape [N; 160; FEAT2DSIZE; FEAT2DSIZE] sa
    ∧ (∀ i, i < N →
         example sa i
         = example m i ++ example s i ++ example n i
           ++ example a_spatial i ++ example a_nonspatial i)
    ∧ CriticNet.forward σ (critic_at G l) obs act
      = (h ← call σ critic_layer_hidden sa; call σ critic_layer_value h)
    ∧ CriticNet.forward σ (critic_at G l) obs act = Ok q
    ∧ has_shape [N; 1] q.
Proof.
  intros HF (Hmm & Hsc & Hns) (Hac & Hs1 & Hs2) G.
  destruct (maps_conv_stack σ minimap_channels l0 N _ _ HF HF _ Hmm) as (m & Em & Hm).
  destruct (maps_conv_stack σ screen_channels (4 + l0) N _ _ HF HF _ Hsc) as (s & Es & Hs).
  destruct (maps_dense_block σ (8 + l0) N _ Hns) as (n & En & Hn).
  destruct (cat_channels N FEAT2DSIZE FEAT2DSIZE [screen1 act; screen2 act] [1; 1])
    as (x & Ex & Hx & _); [done|repeat (constructor; [assumption|]); constructor|].
  destruct (maps_conv_stack σ 2 l N _ _ HF HF _ Hx) as (a_spatial & Ea & Ha).
  destruct (maps_dense_block σ (4 + l) N _ Hac) as (a_nonspatial & Eb & Hb).
  destruct (cat_channels N FEAT2DSIZE FEAT2DSIZE
              [m; s; n; a_spatial; a_nonspatial] [32; 32; 32; 32; 32])
    as (sa & Esa & Hsa & Hblocks);
    [done|repeat (constructor; [assumption|]); constructor|].
  destruct (maps_critic_layer_hidden HF _ Hsa) as (h & Eh & Hh).
  destruct (maps_Linear σ (FEAT2DSIZE * FEAT2DSIZE) 1 (10 + l) (11 + l) N _ Hh)
    as (q & Eq & Hq).
  assert (Hfwd : CriticNet.forward σ (critic_at G l) obs act
                 = (h ← call σ critic_layer_hidden sa; call σ critic_layer_value h)).
  { unfold CriticNet.forward.
    assert (getattr (critic_at G l) "minimap_conv_layers"
            = Ok (conv_stack minimap_channels l0)) as -> by reflexivity.
    assert (getattr (critic_at G l) "screen_conv_layers"
            = Ok (conv_stack screen_channels (4 + l0))) as -> by reflexivity.
    assert (getattr (critic_at G l) "nonspatial_dense"
            = Ok (dense_block (8 + l0))) as -> by reflexivity.
    assert (getattr (critic_at G l) "conv_action"
            = Ok (conv_stack 2 l)) as -> by reflexivity.
    assert (getattr (critic_at G l) "action_dense"
            = Ok (dense_block (4 + l))) as -> by reflexivity.
    assert (getattr (critic_at G l) "layer_hidden"
            = Ok critic_layer_hidden) as -> by reflexivity.
    assert (getattr (critic_at G l) "layer_value"
            = Ok critic_layer_value) as -> by reflexivity.
    cbn [mbind result_bind].
    step Em. step Es. step En. step Ex. step Ea. step Eb. step Esa.
    destruct (call σ critic_layer_hidden sa) as [h'|e]; [|done].
    cbn [mbind result_bind]. by destruct (call σ critic_layer_value h'). }
  exists m, s, n, a_spatial, a_nonspatial, sa, q.
  split_and!; try done.
  - by exists x.
  - repeat (constructor; [assumption|]); constructor.
  - intros i Hi. rewrite (Hblocks i Hi). cbn [flat_map]. by rewrite app_nil_r.
  - rewrite Hfwd. step Eh. exact Eq.
Qed.
End critic_forward.

(** ** The forward pass of the actor *)

(** Lines 56 to 67 of [ActorNet.forward]: the hidden state [state_h] and
    the raw output [pol_categorical] of the categorical head. *)
Definition hidden_and_raw `{arglist} (σ : list tensor) (self : module)
    (obs : observation) : result (tensor * tensor) :=
  f ← getattr self "minimap_conv_layers"; m ← call σ f (minimap obs);
  f ← getattr self "screen_conv_layers"; s ← call σ f (screen obs);
  f ← getattr self "nonspatial_dense"; n ← call σ f (nonspatial obs);
  state_h ← cat [m; s; n] 1;
  f ← getattr self "layer_hidden"; state_h ← call σ f state_h;
  f ← getattr self "layer_action"; pol_categorical ← call σ f state_h;
  Ok (state_h, pol_categorical).

(** Lines 56 to 68: the categorical output, [pol_categorical] after the
    masking step. *)
Definition pol_categorical `{arglist} (σ : list tensor) (self : module)
    (obs : observation) (valid_actions : tensor) : result tensor :=
  r ← hidden_and_raw σ self obs;
  ActorNet._mask_unavailable_actions r.2 valid_actions.

(** [forward] is these lines followed by the two spatial heads. *)
Lemma forward_after_mask `{arglist} (σ : list tensor) (self : module)
    (obs : observation) (valid_actions : tensor) :
  ActorNet.forward σ self obs valid_actions
  = (r ← hidden_and_raw σ self obs;
     pol ← ActorNet._mask_unavailable_actions r.2 valid_actions;
     f ← getattr self "layer_screen1_x"; pol_screen1 ← call σ f r.1;
     f ← getattr self "layer_screen2_x"; pol_screen2 ← call σ f r.1;
     Ok (pol, pol_screen1, pol_screen2)).
Proof.
  unfold ActorNet.forward, hidden_and_raw.
  repeat match goal with
         | |- context [mbind _ ?m] =>
             lazymatch m with
             | getattr _ _ => idtac
             | call _ _ _ => idtac
             | cat _ _ => idtac
             end;
             destruct m; cbn [mbind result_bind fst snd]; [|reflexivity]
         end.
  reflexivity.
Qed.

Section actor_forward.
Context `{arglist}.
Variables (σ : list tensor) (l0 l : loc) (N : nat).

Definition actor_layer_hidden : layer :=
  Sequential [Conv2d (32 * 3) 64 3 1 1 l (1 + l); ReLU].
Definition actor_layer_action : layer :=
  Sequential [Conv2d 64 1 1 1 0 (2 + l) (3 + l); ReLU; Flatten;
              Linear (FEAT2DSIZE * FEAT2DSIZE) NUM_ACTIONS (4 + l) (5 + l)].

Lemma maps_actor_layer_hidden :
  0 < FEAT2DSIZE →
  maps σ actor_layer_hidden [N; 96; FEAT2DSIZE; FEAT2DSIZE]
       [N; 64; FEAT2DSIZE; FEAT2DSIZE].
Proof.
  intros HF. unfold actor_layer_hidden.
  eapply maps_Sequential_cons; [by apply maps_Conv2d_same|].
  eapply maps_Sequential_cons; [apply maps_ReLU|].
  apply maps_Sequential_nil.
Qed.

Lemma maps_actor_layer_action :
  0 < FEAT2DSIZE →
  maps σ actor_layer_action [N; 64; FEAT2DSIZE; FEAT2DSIZE] [N; NUM_ACTIONS].
Proof.
  intros HF. unfold actor_layer_action.
  eapply maps_Sequential_cons; [by apply maps_Conv2d_same|].
  eapply maps_Sequential_cons; [apply maps_ReLU|].
  eapply maps_Sequential_cons;
    [apply (maps_Flatten σ N (FEAT2DSIZE * FEAT2DSIZE));
     rewrite !numel_cons; change (numel []) with 1; lia|].
  eapply maps_Sequential_cons; [apply maps_Linear|].
  apply maps_Sequential_nil.
Qed.

Ltac step E := rewrite E; cbn [mbind result_bind].

(** On an observation of the fixed shapes the hidden state has 64
    channels and the categorical head gives one raw output per action. *)
Lemma hidden_and_raw_run (obs : observation) :
  0 < FEAT2DSIZE → fixed_observation N obs →
  ∃ state_h raw,
    hidden_and_raw σ (actor_at (globals_at l0) l) obs = Ok (state_h, raw)
    ∧ has_shape [N; 64; FEAT2DSIZE; FEAT2DSIZE] state_h
    ∧ has_shape [N; NUM_ACTIONS] raw.
Proof.
  intros HF (Hmm & Hsc & Hns).
  destruct (maps_conv_stack σ minimap_channels l0 N _ _ HF HF _ Hmm) as (m & Em & Hm).
  destruct (maps_conv_stack σ screen_channels (4 + l0) N _ _ HF HF _ Hsc) as (s & Es & Hs).
  destruct (maps_dense_block σ (8 + l0) N _ Hns) as (n & En & Hn).
  destruct (cat_channels N FEAT2DSIZE FEAT2DSIZE [m; s; n] [32; 32; 32])
    as (x & Ex & Hx & _); [done|repeat (constructor; [assumption|]); constructor|].
  destruct (maps_actor_layer_hidden HF _ Hx) as (state_h & Eh & Hh).
  destruct (maps_actor_layer_action HF _ Hh) as (raw & Er & Hr).
  exists state_h, raw. split; [|done].
  unfold hidden_and_raw.
  assert (getattr (actor_at (globals_at l0) l) "minimap_conv_layers"
          = Ok (conv_stack minimap_channels l0)) as -> by reflexivity.
  assert (getattr (actor_at (globals_at l0) l) "screen_conv_layers"
          = Ok (conv_stack screen_channels (4 + l0))) as -> by reflexivity.
  assert (getattr (actor_at (globals_at l0) l) "nonspatial_dense"
          = Ok (dense_block (8 + l0))) as -> by reflexivity.
  assert (getattr (actor_at (globals_at l0) l) "layer_hidden"
          = Ok actor_layer_hidden) as -> by reflexivity.
  assert (getattr (actor_at (globals_at l0) l) "layer_action"
          = Ok actor_layer_action) as -> by reflexivity.
  cbn [mbind result_bind].
  step Em. step Es. step En. step Ex. step Eh. step Er. reflexivity.
Qed.

(** No attribute [layer_screen1_x] was ever assigned. *)
Lemma getattr_layer_screen1_x (G : globals) :
  getattr (actor_at G l) "layer_screen1_x" = Err (AttributeError "layer_screen1_x").
Proof. reflexivity. Qed.
End actor_forward.

(** ** Claims about construction and parameter storage *)

(** C2, as the spec states it: no tensor is a parameter of both networks. *)
Definition disjoint_parameters (actor critic : module) : Prop :=
  ∀ l, l ∈ module_parameters actor → l ∉ module_parameters critic.

(** X2 (claim C2, amended).  An [ActorNet] and a [CriticNet] constructed from the
    module-level objects, in either order, have in common exactly the
    tensors of the three module-level encoders [conv_minimap],
    [conv_screen] and [dense_nonspatial]; every other parameter tensor
    belongs to one network only. *)
Theorem networks_share_exactly_the_encoders `{arglist} `{init_schemes}
    (G : globals) (sa sa' sc sc' : state) (actor critic : module) :
  (∀ l, l ∈ encoder_parameters G → l < length (store sa) ∧ l < length (store sc)) →
  ActorNet.__init__ G sa = (actor, sa') →
  CriticNet.__init__ G sc = (critic, sc') →
  length (store sa') ≤ length (store sc) ∨ length (store sc') ≤ length (store sa) →
  ∀ l, l ∈ module_parameters actor ∧ l ∈ module_parameters critic
       ↔ l ∈ encoder_parameters G.
Proof.
  intros HG Ha Hc Horder l.
  apply ActorNet_init_built in Ha as [-> Hla].
  apply CriticNet_init_built in Hc as [-> Hlc].
  rewrite module_parameters_actor_at, module_parameters_critic_at.
  rewrite !elem_of_app, !elem_of_seq. split.
  - intros [[Hl|Hl] [Hl'|Hl']]; try done. lia.
  - intros Hl. split; by left.
Qed.

(** Either constructor, run on the module-level objects [G]: the network
    holds every tensor of the encoders, and the constructor overwrites it
    with what the initialisation scheme produces at a generator position of
    this run. *)
Lemma constructor_overwrites_encoders `{arglist} `{init_schemes}
    (G : globals) (s s' : state) (net : module) (l : loc) (t : tensor) :
  ActorNet.__init__ G s = (net, s') ∨ CriticNet.__init__ G s = (net, s') →
  l ∈ encoder_parameters G → store s !! l = Some t →
  l ∈ module_parameters net
  ∧ ∃ k, (rng s ≤ k)%N ∧ (k + numelN (shape t) ≤ rng s')%N
         ∧ store s' !! l = Some (Tensor (shape t) (init_scheme k (shape t))).
Proof.
  intros [Hinit|Hinit] Hl Ht.
  - destruct (ActorNet_init_overwrites G s s' net l t Hinit Hl Ht) as (-> & _ & Hk).
    split; [|done]. rewrite module_parameters_actor_at. apply elem_of_app. by left.
  - destruct (CriticNet_init_overwrites G s s' net l t Hinit Hl Ht) as (-> & _ & Hk).
    split; [|done]. rewrite module_parameters_critic_at. apply elem_of_app. by left.
Qed.

(** C10.  [ActorNet.__init__] and [CriticNet.__init__] apply
    [init_weights] to all submodules of the new network, the module-level
    encoders included, which every network holds by reference.  Construct
    a first network, an actor or a critic, and then a second one, an actor
    or a critic, from the same module-level objects.  For every tensor [l]
    of those encoders: both networks hold [l]; the first constructor wrote
    to [l] what the scheme produced at a generator position [k1] of its own
    run; the second constructor overwrites [l], in the first network too,
    with what the scheme produces at a position [k2] of the second run,
    after every position of the first.  What the first network computes
    with afterwards is the output at [k2]: its encoder parameters are those
    of the network constructed last, and they differ from the ones it was
    constructed with exactly when the scheme gives different values at the
    two positions. *)
Theorem second_construction_reinitialises_shared_encoders
    `{arglist} `{init_schemes}
    (G : globals) (s0 s1 s2 : state) (first second : module) (l : loc) (t0 : tensor) :
  ActorNet.__init__ G s0 = (first, s1) ∨ CriticNet.__init__ G s0 = (first, s1) →
  ActorNet.__init__ G s1 = (second, s2) ∨ CriticNet.__init__ G s1 = (second, s2) →
  l ∈ encoder_parameters G → store s0 !! l = Some t0 →
  l ∈ module_parameters first ∧ l ∈ module_parameters second
  ∧ ∃ k1 k2,
      (rng s0 ≤ k1 ∧ k1 + numelN (shape t0) ≤ rng s1
       ∧ rng s1 ≤ k2 ∧ k2 + numelN (shape t0) ≤ rng s2)%N
      ∧ store s1 !! l = Some (Tensor (shape t0) (init_scheme k1 (shape t0)))
      ∧ store s2 !! l = Some (Tensor (shape t0) (init_scheme k2 (shape t0)))
      ∧ (store s2 !! l = store s1 !! l
         ↔ init_scheme k2 (shape t0) = init_scheme k1 (shape t0)).
Proof.
  intros H1 H2 Hl Ht0.
  destruct (constructor_overwrites_encoders G s0 s1 first l t0 H1 Hl Ht0)
    as (Hin1 & k1 & Hk1a & Hk1b & Hst1).
  destruct (constructor_overwrites_encoders G s1 s2 second l _ H2 Hl Hst1)
    as (Hin2 & k2 & Hk2a & Hk2b & Hst2).
  cbn [shape] in *.
  split_and!; [done..|].
  exists k1, k2. split_and!; [done..|].
  rewrite Hst1, Hst2. split; [by intros [= ->] | by intros ->].
Qed.

(** *** A concrete run *)

(** Two actions on a 1 by 1 grid. *)
Definition small_config : arglist := {| NUM_ACTIONS := 2; FEAT2DSIZE := 1 |}.

(** Constructors fill with zeros; the initialisation scheme fills a
    tensor with the generator position it is called at. *)
Definition position_schemes : init_schemes :=
  {| reset_parameters := λ _ sh, replicate (numel sh) zero;
     init_scheme := λ k sh, replicate (numel sh) (of_Z (Z.of_N k)) |}.

(** The program [import acnetwork_seperated; a = ActorNet(); c = CriticNet()]
    run from an empty store. *)
Abbreviation run_import :=
  (import (H := small_config) (H0 := position_schemes) (State [] 0)).
Abbreviation run_actor :=
  (ActorNet.__init__ (H := small_config) (H0 := position_schemes)
     run_import.1 run_import.2).
Abbreviation run_critic :=
  (CriticNet.__init__ (H := small_config) (H0 := position_schemes)
     run_import.1 run_actor.2).

(** The first tensor that the import allocates: the weight of the first
    convolution of [conv_minimap]. *)
Definition run_tensor : tensor :=
  Tensor [16; 7; 5; 5]
    (reset_parameters (init_schemes := position_schemes) 0 [16; 7; 5; 5]).

(** The critic after the actor.  In this run the scheme wrote its
    generator position, so the tensor at location 0 changes under the
    actor when the critic is constructed. *)
Lemma second_construction_reinitialises_shared_encoders_witness :
  0 ∈ module_parameters run_actor.1 ∧ 0 ∈ module_parameters run_critic.1
  ∧ ∃ k1 k2,
      (rng run_import.2 ≤ k1 ∧ k1 + numelN (shape run_tensor) ≤ rng run_actor.2
       ∧ rng run_actor.2 ≤ k2 ∧ k2 + numelN (shape run_tensor) ≤ rng run_critic.2)%N
      ∧ store run_actor.2 !! 0
        = Some (Tensor (shape run_tensor)
                  (init_scheme (init_schemes := position_schemes) k1 (shape run_tensor)))
      ∧ store run_critic.2 !! 0
        = Some (Tensor (shape run_tensor)
                  (init_scheme (init_schemes := position_schemes) k2 (shape run_tensor)))
      ∧ (store run_critic.2 !! 0 = store run_actor.2 !! 0
         ↔ init_scheme (init_schemes := position_schemes) k2 (shape run_tensor)
           = init_scheme (init_schemes := position_schemes) k1 (shape run_tensor)).
Proof.
  refine (second_construction_reinitialises_shared_encoders
            (H := small_config) (H0 := position_schemes)
            run_import.1 run_import.2 run_actor.2 run_critic.2
            run_actor.1 run_critic.1 0 run_tensor
            (or_introl (surjective_pairing _)) (or_intror (surjective_pairing _)) _ _).
  - vm_compute. constructor.
  - vm_compute. reflexivity.
Defined.

Example critic_construction_changes_actor_encoder :
  store run_critic.2 !! 0 ≠ store run_actor.2 !! 0.
Proof. compute_done. Qed.

(** The two networks constructed in the other order. *)
Abbreviation run_critic_first :=
  (CriticNet.__init__ (H := small_config) (H0 := position_schemes)
     run_import.1 run_import.2).
Abbreviation run_actor_second :=
  (ActorNet.__init__ (H := small_config) (H0 := position_schemes)
     run_import.1 run_critic_first.2).

(** The encoder tensors that both networks end up with depend on which
    of them was constructed last. *)
Example construction_order_matters :
  store run_critic.2 !! 0 ≠ store run_actor_second.2 !! 0.
Proof. compute_done. Qed.

(** In the concrete run the weight of the first convolution of
    [conv_minimap], at location 0, is a parameter of both networks. *)
Lemma disjoint_parameters_counterexample :
  ¬ disjoint_parameters run_actor.1 run_critic.1.
Proof.
  intros Hclaim. apply (Hclaim 0); vm_compute; constructor.
Qed.

Lemma networks_share_exactly_the_encoders_witness :
  0 ∈ module_parameters run_actor.1 ∧ 0 ∈ module_parameters run_critic.1
  ↔ 0 ∈ encoder_parameters run_import.1.
Proof.
  refine (networks_share_exactly_the_encoders
            (H := small_config) (H0 := position_schemes)
            run_import.1 run_import.2 run_actor.2 run_actor.2 run_critic.2
            run_actor.1 run_critic.1 _ (surjective_pairing _) (surjective_pairing _) _ 0).
  - assert (encoder_parameters run_import.1 = seq 0 10) as -> by (vm_compute; reflexivity).
    assert (length (store run_import.2) = 10) as -> by (vm_compute; reflexivity).
    assert (length (store run_actor.2) = 20) as -> by (vm_compute; reflexivity).
    intros l Hl%elem_of_seq. lia.
  - left. apply le_n.
Defined.

(** ** Claims about [CriticNet.forward] *)

(** An observation and an action of the fixed shapes for [small_config],
    with one example. *)
Definition small_observation : observation :=
  Observation (Tensor [1; 7; 1; 1] (replicate 7 one))
              (Tensor [1; 17; 1; 1] (replicate 17 one))
              (Tensor [1; 2] [one; zero]).

Definition small_action : action :=
  Action (Tensor [1; 2] [zero; one])
         (Tensor [1; 1; 1; 1] [one]) (Tensor [1; 1; 1; 1] [zero]).

Lemma small_observation_fixed :
  fixed_observation (H := small_config) 1 small_observation.
Proof. repeat split. Qed.

Lemma small_action_fixed : fixed_action (H := small_config) 1 small_action.
Proof. repeat split. Qed.

(** X4 (claim C7).  For a critic constructed from the imported module-level objects,
    whatever the parameter values in the store, and every observation and
    action of the fixed shapes with [N] examples: [CriticNet.forward]
    returns a tensor of shape [(N, 1)], one scalar per example. *)
Theorem critic_returns_one_scalar_per_example `{arglist} `{init_schemes}
    (s0 s1 s s' : state) (G : globals) (critic : module)
    (σ : list tensor) (N : nat) (obs : observation) (act : action) :
  import s0 = (G, s1) → CriticNet.__init__ G s = (critic, s') →
  0 < FEAT2DSIZE → fixed_observation N obs → fixed_action N act →
  ∃ q, CriticNet.forward σ critic obs act = Ok q
       ∧ shape q = [N; 1] ∧ length (data q) = N.
Proof.
  intros Himp Hinit HF Hobs Hact.
  destruct (import_run s0) as (s1' & Himp' & _). rewrite Himp' in Himp.
  apply (f_equal fst) in Himp. cbn [fst] in Himp. subst G.
  apply CriticNet_init_built in Hinit as [-> _].
  destruct (CriticNet_forward_run σ (length (store s0)) (length (store s)) N
              obs act HF Hobs Hact)
    as (m & sc & n & asp & ansp & sa & q & _ & _ & _ & _ & _ & _ & _ & _ & _ & _
        & Hq & Hsh & Hwf).
  exists q. split_and!; [done|done|].
  unfold wf in Hwf. rewrite Hwf, Hsh. cbn. lia.
Qed.

Lemma critic_returns_one_scalar_per_example_witness :
  ∃ q, CriticNet.forward (H := small_config) (store run_critic.2) run_critic.1
         small_observation small_action = Ok q
       ∧ shape q = [1; 1] ∧ length (data q) = 1.
Proof.
  refine (critic_returns_one_scalar_per_example
            (H := small_config) (H0 := position_schemes)
            (State [] 0) run_import.2 run_actor.2 run_critic.2
            run_import.1 run_critic.1 (store run_critic.2) 1
            small_observation small_action
            (surjective_pairing _) (surjective_pairing _) _ _ _).
  - apply le_n.
  - exact small_observation_fixed.
  - exact small_action_fixed.
Defined.

(** What C8 says of one call [CriticNet.forward(obs, act)] with [N]
    examples in the store [σ]: the five encodings [m], [sc], [n],
    [a_spatial], [a_nonspatial] have 32 channels each; [sa], the tensor
    handed to the fusion stage, is their concatenation along the channel
    axis, has 160 channels, and each of its examples is that example's five
    encodings in this order; the result is the value layer applied to the
    fusion stage applied to [sa]. *)
Definition fuses_five_encodings_in_order `{arglist}
    (σ : list tensor) (critic : module) (N : nat)
    (obs : observation) (act : action) : Prop :=
  ∃ f_minimap f_screen f_nonspatial f_conv_action f_action_dense
    layer_hidden layer_value m sc n x a_spatial a_nonspatial sa,
    getattr critic "minimap_conv_layers" = Ok f_minimap
    ∧ getattr critic "screen_conv_layers" = Ok f_screen
    ∧ getattr critic "nonspatial_dense" = Ok f_nonspatial
    ∧ getattr critic "conv_action" = Ok f_conv_action
    ∧ getattr critic "action_dense" = Ok f_action_dense
    ∧ getattr critic "layer_hidden" = Ok layer_hidden
    ∧ getattr critic "layer_value" = Ok layer_value
    ∧ call σ f_minimap (minimap obs) = Ok m
    ∧ call σ f_screen (screen obs) = Ok sc
    ∧ call σ f_nonspatial (nonspatial obs) = Ok n
    ∧ cat [screen1 act; screen2 act] 1 = Ok x
    ∧ call σ f_conv_action x = Ok a_spatial
    ∧ call σ f_action_dense (categorical act) = Ok a_nonspatial
    ∧ Forall (λ t, shape t = [N; 32; FEAT2DSIZE; FEAT2DSIZE])
             [m; sc; n; a_spatial; a_nonspatial]
    ∧ cat [m; sc; n; a_spatial; a_nonspatial] 1 = Ok sa
    ∧ shape sa = [N; 160; FEAT2DSIZE; FEAT2DSIZE]
    ∧ (∀ i, i < N →
         example sa i
         = example m i ++ example sc i ++ example n i
           ++ example a_spatial i ++ example a_nonspatial i)
    ∧ CriticNet.forward σ critic obs act
      = (h ← call σ layer_hidden sa; call σ layer_value h).

(** X5 (claim C8).  For a critic constructed from the imported module-level objects
    and inputs of the fixed shapes, [CriticNet.forward] concatenates the
    five 32-channel encodings along the channel axis in the order minimap,
    screen, non-spatial observation, spatial action, non-spatial action,
    into a 160-channel tensor, before the fusion stage and the final dense
    layer are applied. *)
Theorem critic_concatenates_five_encodings_in_order `{arglist} `{init_schemes}
    (s0 s1 s s' : state) (G : globals) (critic : module)
    (σ : list tensor) (N : nat) (obs : observation) (act : action) :
  import s0 = (G, s1) → CriticNet.__init__ G s = (critic, s') →
  0 < FEAT2DSIZE → fixed_observation N obs → fixed_action N act →
  fuses_five_encodings_in_order σ critic N obs act.
Proof.
  intros Himp Hinit HF Hobs Hact.
  destruct (import_run s0) as (s1' & Himp' & _). rewrite Himp' in Himp.
  apply (f_equal fst) in Himp. cbn [fst] in Himp. subst G.
  apply CriticNet_init_built in Hinit as [-> _].
  destruct (CriticNet_forward_run σ (length (store s0)) (length (store s)) N
              obs act HF Hobs Hact)
    as (m & sc & n & asp & ansp & sa & q & Em & Es & En & (x & Ex & Ea) & Eb
        & Hsh & Esa & [Hsa _] & Hblocks & Hfwd & _).
  unfold fuses_five_encodings_in_order.
  eexists _, _, _, _, _, _, _, m, sc, n, x, asp, ansp, sa.
  split_and!; try reflexivity; try done.
  eapply Forall_impl; [exact Hsh|]. by intros t [Ht _].
Qed.

Lemma critic_concatenates_five_encodings_in_order_witness :
  fuses_five_encodings_in_order (H := small_config)
    (store run_critic.2) run_critic.1 1 small_observation small_action.
Proof.
  refine (critic_concatenates_five_encodings_in_order
            (H := small_config) (H0 := position_schemes)
            (State [] 0) run_import.2 run_actor.2 run_critic.2
            run_import.1 run_critic.1 (store run_critic.2) 1
            small_observation small_action
            (surjective_pairing _) (surjective_pairing _) _ _ _).
  - apply le_n.
  - exact small_observation_fixed.
  - exact small_action_fixed.
Defined.

(** ** Claims about [ActorNet.forward] *)

(** X1 (claim C1).  [ActorNet.forward] calls its two spatial heads under the names
    [layer_screen1_x] and [layer_screen2_x], while [__init__] registers them
    as [layer_screen1] and [layer_screen2].  For an actor constructed from
    the imported module-level objects, [forward] therefore never returns;
    on an observation of the fixed shapes with one example and a mask with
    one entry per action, everything up to the masking step succeeds and
    the call raises [AttributeError] for [layer_screen1_x]. *)
Theorem actor_forward_raises_AttributeError `{arglist} `{init_schemes}
    (s0 s1 s s' : state) (G : globals) (actor : module) :
  import s0 = (G, s1) → ActorNet.__init__ G s = (actor, s') →
  (∀ σ obs va, is_ok (ActorNet.forward σ actor obs va) = false)
  ∧ (∀ σ obs va,
       0 < FEAT2DSIZE → fixed_observation 1 obs →
       has_shape [NUM_ACTIONS] va ∨ has_shape [1; NUM_ACTIONS] va →
       ActorNet.forward σ actor obs va = Err (AttributeError "layer_screen1_x")).
Proof.
  intros Himp Hinit.
  destruct (import_run s0) as (s1' & Himp' & _). rewrite Himp' in Himp.
  apply (f_equal fst) in Himp. cbn [fst] in Himp. subst G.
  apply ActorNet_init_built in Hinit as [-> _]. split.
  - intros σ obs va. rewrite forward_after_mask.
    destruct (hidden_and_raw _ _ _) as [r|e]; cbn [mbind result_bind]; [|done].
    destruct (ActorNet._mask_unavailable_actions _ _) as [pol|e];
      cbn [mbind result_bind]; [|done].
    by rewrite getattr_layer_screen1_x.
  - intros σ obs va HF Hobs Hva. rewrite forward_after_mask.
    destruct (hidden_and_raw_run σ (length (store s0)) (length (store s)) 1 obs HF Hobs)
      as (state_h & [shr p] & -> & _ & [Hshr Hwfr]).
    cbn [mbind result_bind fst snd]. unfold wf in Hwfr. cbn [shape data] in *. subst shr.
    destruct va as [shm m].
    rewrite (mask_batch1 NUM_ACTIONS).
    + cbn [mbind result_bind]. by rewrite getattr_layer_screen1_x.
    + rewrite Hwfr. cbn. lia.
    + destruct Hva as [[Hs Hw]|[Hs Hw]]; unfold wf in Hw; cbn [shape data] in *;
        rewrite Hw, Hs; cbn; lia.
    + destruct Hva as [[Hs _]|[Hs _]]; cbn [shape] in Hs; auto.
Qed.

Lemma actor_forward_raises_AttributeError_witness :
  ActorNet.forward (H := small_config) (store run_actor.2) run_actor.1
    small_observation (vec [1; 1]%Z)
  = Err (AttributeError "layer_screen1_x").
Proof.
  refine (proj2 (actor_forward_raises_AttributeError
                   (H := small_config) (H0 := position_schemes)
                   (State [] 0) run_import.2 run_import.2 run_actor.2
                   run_import.1 run_actor.1
                   (surjective_pairing _) (surjective_pairing _))
            (store run_actor.2) small_observation (vec [1; 1]%Z) _ _ _).
  - apply le_n.
  - exact small_observation_fixed.
  - left. split; reflexivity.
Defined.

(** The same call, evaluated. *)
Example actor_forward_small_run :
  ActorNet.forward (H := small_config) (store run_actor.2) run_actor.1
    small_observation (vec [1; 1]%Z)
  = Err (AttributeError "layer_screen1_x").
Proof. vm_compute. reflexivity. Qed.

(** C3, as the spec states it: for one example whose mask does not sum to
    zero, the categorical output has no negative entry and sums to one. *)
Definition categorical_is_distribution `{arglist} (σ : list tensor) (actor : module)
    (obs : observation) (valid_actions : tensor) : Prop :=
  ssum (data valid_actions) ≠ zero →
  ∃ out, pol_categorical σ actor obs valid_actions = Ok out
         ∧ Forall nonneg (data out) ∧ ssum (data out) = one.

(** The store of the concrete run after a training step has set the
    dense layer of the categorical head (weight at 14, bias at 15) to
    weight 0 and bias (2, -1). *)
Definition trained_store : list tensor :=
  <[14 := Tensor [2; 1] [zero; zero]]>
    (<[15 := Tensor [2] [of_Z 2; of_Z (-1)]]> (store run_actor.2)).

Lemma trained_raw :
  snd <$> (match hidden_and_raw (H := small_config) trained_store run_actor.1
                   small_observation with
           | Ok r => Some r | Err _ => None end)
  = Some (row [2; -1]%Z).
Proof. vm_compute. reflexivity. Qed.

Lemma trained_pol_categorical :
  pol_categorical (H := small_config) trained_store run_actor.1
    small_observation (vec [1; 1]%Z) = Ok (row [2; -1]%Z).
Proof. compute_done. Qed.

Lemma both_actions_valid : ssum (data (vec [1; 1]%Z)) ≠ zero.
Proof. compute_done. Qed.

(** With these parameters the raw outputs are 2 and -1 whatever the
    observation; both actions are valid, the masked sum is 1, and the
    categorical output (2, -1) has a negative entry. *)
Lemma categorical_is_distribution_counterexample :
  ¬ categorical_is_distribution (H := small_config) trained_store run_actor.1
      small_observation (vec [1; 1]%Z).
Proof.
  intros Hclaim.
  destruct (Hclaim both_actions_valid) as (out & Hout & Hnn & _).
  rewrite trained_pol_categorical in Hout. injection Hout as <-.
  apply Forall_cons in Hnn as [_ Hnn]. apply Forall_cons in Hnn as [Hneg _].
  by vm_compute in Hneg.
Qed.

(** X3.  The masking step keeps raw outputs that are not negative in
    that state.  One example whose raw outputs are finite and not negative,
    a mask of zeros and ones, and a masked row whose sum is not zero, that
    is, a valid action with a raw output that is not zero: the masking
    step raises nothing, and every entry of its result is finite and not
    negative.  (The divisor is a sum of entries that are not negative, one
    of them positive: it is positive, also when it is rounded or
    overflows.) *)
Theorem masking_keeps_outputs_nonnegative
    (A : nat) (p m : list scalar) (shm : list nat) :
  length p = A → length m = A → shm = [A] ∨ shm = [1; A] →
  Forall nonneg p → binary m → ssum (zip_with smul p m) ≠ zero →
  ∃ out, ActorNet._mask_unavailable_actions (Tensor [1; A] p) (Tensor shm m)
         = Ok (Tensor [1; A] out)
         ∧ length out = A
         ∧ Forall nonneg out.
Proof.
  intros Hp Hm Hsh Hnn Hbin Hsum.
  assert (finite_row p) as Hfin.
  { eapply Forall_impl; [exact Hnn|]. by intros [q| |]. }
  destruct (mask_normalises A p m shm Hp Hm Hsh Hfin Hbin Hsum)
    as (out & Hout & Hlen & _ & _ & Hout_nn).
  exists out. split_and!; [done..|]. by apply Hout_nn.
Qed.

Lemma masking_keeps_outputs_nonnegative_witness :
  ∃ out, ActorNet._mask_unavailable_actions (row [1; 2; 5]%Z) (vec [1; 1; 0]%Z)
         = Ok (Tensor [1; 3] out)
         ∧ length out = 3
         ∧ Forall nonneg out.
Proof.
  apply (masking_keeps_outputs_nonnegative 3
           (map of_Z [1; 2; 5]%Z) (map of_Z [1; 1; 0]%Z) [3]).
  - reflexivity.
  - reflexivity.
  - left. reflexivity.
  - vm_compute. repeat (constructor; [discriminate|]). constructor.
  - unfold binary. repeat constructor; (by left) || (by right).
  - vm_compute. discriminate.
Defined.

(** * Further properties *)

(** ** [_conv_output_shape] *)

(** The [kernel_size] argument: an integer or a pair. *)
Inductive kernel_arg : Type :=
| KInt (k : Z)
| KTuple (kh kw : Z).

(** *** Python floats

    The helper divides two integers with [/], adds 1 and takes
    [math.floor].  In Python [/] on integers gives a float, the quotient
    rounded to binary64, and raises [OverflowError] when the rounded
    quotient is too large for a float; [+] on floats rounds again.  A
    finite float is represented by the rational it stands for (the two
    zeros are identified, which [floor(x + 1)] cannot tell apart). *)

Inductive arithmetic_error : Type :=
| ZeroDivisionError
| OverflowError.

(** The exponent of the power of two at or below [|q|], for [q <> 0]. *)
Definition binade (q : Q) : Z :=
  let c := (Z.log2 (Z.abs (Qnum q)) - Z.log2 (Zpos (Qden q)))%Z in
  if Qle_bool (2 ^ c) (Qabs q) then c else (c - 1)%Z.

(** The spacing of the binary64 numbers around [q]: 53 significant bits,
    and the spacing [2 ^ -1074] of the subnormal numbers below
    [2 ^ -1022]. *)
Definition ulp (q : Q) : Q := (2 ^ (Z.max (binade q) (-1022) - 52))%Q.

(** The nearest integer, the even one of the two when [v] is half-way. *)
Definition rne (v : Q) : Z :=
  let f := Qfloor v in
  match (v - inject_Z f ?= 1 # 2)%Q with
  | Lt => f
  | Gt => (f + 1)%Z
  | Eq => if Z.even f then f else (f + 1)%Z
  end.

(** Rounding to binary64; [None] when the result is beyond the largest
    float. *)
Definition round64 (q : Qc) : option Qc :=
  let x := (inject_Z (rne (q / ulp q)) * ulp q)%Q in
  if Qle_bool (2 ^ 1024) (Qabs x) then None else Some (Q2Qc x).

(** [a / b] on two integers. *)
Definition truediv (a b : Z) : arithmetic_error + Qc :=
  if decide (b = 0%Z) then inl ZeroDivisionError
  else match round64 (Q2Qc (inject_Z a) / Q2Qc (inject_Z b))%Qc with
       | Some x => inr x
       | None => inl OverflowError
       end.

(** [x + y] on two floats; [None] is an infinity. *)
Definition float_add (x y : Qc) : option Qc := round64 (x + y)%Qc.

(** [math.floor]; it raises [OverflowError] on an infinity. *)
Definition floor (x : option Qc) : arithmetic_error + Z :=
  match x with
  | Some x => inr (Qfloor x)
  | None => inl OverflowError
  end.

(** The right-hand side of lines 78 and 79 (158 and 159), with the entry
    of [h_w] and of [kernel_size] that the line reads. *)
Definition output_size (size kernel stride pad dilation : Z) : arithmetic_error + Z :=
  match truediv (size + 2 * pad - dilation * (kernel - 1) - 1) stride with
  | inr x => floor (float_add x 1%Qc)
  | inl e => inl e
  end.

(** [ActorNet._conv_output_shape] and [CriticNet._conv_output_shape] (the
    two methods have the same body), on integer arguments. *)
Definition _conv_output_shape (h_w : Z * Z) (kernel_size : kernel_arg)
    (stride pad dilation : Z) : arithmetic_error + Z * Z :=
  let kernel_size :=
    match kernel_size with KInt k => (k, k) | KTuple kh kw => (kh, kw) end in
  match output_size h_w.1 kernel_size.1 stride pad dilation with
  | inl e => inl e
  | inr h =>
      match output_size h_w.2 kernel_size.2 stride pad dilation with
      | inl e => inl e
      | inr w => inr (h, w)
      end
  end.

(** Some calls, evaluated.  The third and the fourth are where rounding
    shows: sizes above [2 ^ 53] are not kept, and with a stride of
    [2 ^ 53] the result is 2 where the quotient rounded down, plus one,
    is 1. *)
Example conv_output_shape_runs :
  _conv_output_shape (16, 21)%Z (KTuple 5 3) 2 2 1 = inr (8, 12)%Z
  ∧ _conv_output_shape (10, 10)%Z (KInt 3) (-2) 0 1 = inr (-3, -3)%Z
  ∧ _conv_output_shape (2 ^ 53 + 2, 5)%Z (KInt 1) 1 0 1 = inr (2 ^ 53, 5)%Z
  ∧ _conv_output_shape (2 ^ 53, 2 ^ 53)%Z (KInt 1) (2 ^ 53) 0 1 = inr (2, 2)%Z
  ∧ _conv_output_shape (10 ^ 400, 5)%Z (KInt 1) 1 0 1 = inl OverflowError
  ∧ _conv_output_shape (5, 10 ^ 400)%Z (KInt 1) 0 0 1 = inl ZeroDivisionError.
Proof. split_and!; vm_compute; reflexivity. Qed.

(** *** Rounding *)

#[global] Instance rne_comp : Proper (Qeq ==> eq) rne.
Proof.
  intros v v' Hv. unfold rne. rewrite (Qfloor_comp _ _ Hv).
  assert (v - inject_Z (Qfloor v') == v' - inject_Z (Qfloor v'))%Q as He by (by rewrite Hv).
  by rewrite (Qcompare_comp _ _ He _ _ (Qeq_refl _)).
Qed.

Lemma rne_Z (k : Z) : rne (inject_Z k) = k.
Proof.
  unfold rne. rewrite Qfloor_Z.
  assert ((inject_Z k - inject_Z k ?= 1 # 2) = Lt)%Q as ->; [|done].
  apply (proj1 (Qlt_alt _ _)). generalize (inject_Z k). intros x. lra.
Qed.

Lemma rne_ge_floor (v : Q) : (Qfloor v ≤ rne v)%Z.
Proof. unfold rne. repeat case_match; lia. Qed.

Lemma rne_le (v : Q) : (inject_Z (rne v) <= v + (1 # 2))%Q.
Proof.
  unfold rne. pose proof (Qfloor_le v) as Hf.
  destruct (Qcompare_spec (v - inject_Z (Qfloor v)) (1 # 2)) as [He|Hl|Hg].
  - case_match; [lra|]. rewrite inject_Z_plus. change (inject_Z 1) with 1%Q. lra.
  - lra.
  - rewrite inject_Z_plus. change (inject_Z 1) with 1%Q. lra.
Qed.

Lemma two_pow_Z (c : Z) : (0 ≤ c)%Z → (2 ^ c == inject_Z (2 ^ c))%Q.
Proof. intros Hc. by rewrite Zpower_Qpower. Qed.

Lemma two_pow_pos (c : Z) : (0 < 2 ^ c)%Q.
Proof. by apply Qpower_0_lt. Qed.

Lemma Qred_Z (z : Z) : Qred (inject_Z z) = inject_Z z.
Proof. apply Qred_identity. simpl. apply Z.gcd_1_r. Qed.

Lemma binade_Z (z : Z) : z ≠ 0%Z → binade (inject_Z z) = Z.log2 (Z.abs z).
Proof.
  intros Hz. unfold binade. cbn [Qnum Qden inject_Z]. change (Z.log2 1) with 0%Z.
  rewrite Z.sub_0_r.
  assert (Qle_bool (2 ^ Z.log2 (Z.abs z)) (Qabs (inject_Z z)) = true) as ->; [|done].
  apply Qle_bool_iff. rewrite two_pow_Z by apply Z.log2_nonneg.
  unfold inject_Z at 2. rewrite <-Zabs_Qabs. change (Z.abs z # 1) with (inject_Z (Z.abs z)).
  rewrite <-Zle_Qle.
  apply Z.log2_spec. lia.
Qed.

Ltac round64_compute :=
  match goal with
  | |- (if ?b then _ else _) = _ =>
      replace b with false by (vm_compute; reflexivity);
      f_equal; apply Q2Qc_eq_iff; vm_compute; reflexivity
  end.

Lemma round64_Z (z : Z) :
  (Z.abs z ≤ 2 ^ 53)%Z → round64 (Q2Qc (inject_Z z)) = Some (Q2Qc (inject_Z z)).
Proof.
  intros Hz. unfold round64, ulp. cbn [this Q2Qc]. rewrite Qred_Z.
  destruct (decide (z = 0%Z)) as [->|Hz0]; [round64_compute|].
  rewrite binade_Z by done.
  set (c := Z.log2 (Z.abs z)).
  assert (0 ≤ c ≤ 53)%Z as Hc.
  { split; [apply Z.log2_nonneg|].
    subst c. rewrite <-(Z.log2_pow2 53) by done. by apply Z.log2_le_mono. }
  rewrite Z.max_l by lia.
  destruct (decide (c = 53%Z)) as [Hc53|Hc53].
  - assert (Z.abs z = 2 ^ 53)%Z as Habs.
    { pose proof (Z.log2_spec (Z.abs z) ltac:(lia)) as [Hlo _].
      fold c in Hlo. rewrite Hc53 in Hlo. lia. }
    rewrite Hc53.
    destruct (Z.abs_eq_or_opp z) as [Heq|Heq]; rewrite Heq in Habs.
    + rewrite Habs. round64_compute.
    + assert (z = - 2 ^ 53)%Z as -> by lia. round64_compute.
  - set (a := (52 - c)%Z).
    assert (inject_Z z / 2 ^ (c - 52) == inject_Z (z * 2 ^ a))%Q as Hv.
    { rewrite inject_Z_mult, <-two_pow_Z by lia.
      replace (c - 52)%Z with (- a)%Z by lia. rewrite Qpower_opp.
      field. apply Qpower_not_0. discriminate. }
    rewrite Hv, rne_Z.
    assert (inject_Z (z * 2 ^ a) * 2 ^ (c - 52) == inject_Z z)%Q as Hx.
    { rewrite <-Hv. field. apply Qpower_not_0. discriminate. }
    rewrite Hx.
    assert (Qle_bool (2 ^ 1024) (Qabs (inject_Z z)) = false) as ->.
    { apply not_true_is_false. rewrite Qle_bool_iff. intros Hle.
      unfold inject_Z at 1 in Hle. rewrite <-Zabs_Qabs in Hle.
      change (Z.abs z # 1) with (inject_Z (Z.abs z)) in Hle.
      rewrite two_pow_Z in Hle by done. rewrite <-Zle_Qle in Hle.
      assert (2 ^ 53 < 2 ^ 1024)%Z by (by apply Z.pow_lt_mono_r). lia. }
    f_equal. apply Q2Qc_eq_iff. by rewrite Hv, rne_Z.
Qed.

Lemma Qcdiv_1_r (x : Qc) : (x / Q2Qc (inject_Z 1))%Qc = x.
Proof.
  apply Qc_is_canon. cbn [this Qcdiv Qcmult Qcinv Q2Qc].
  rewrite !Qred_correct. change (inject_Z 1) with 1%Q. field.
Qed.

Lemma Q2Qc_inject_Z_plus_1 (z : Z) :
  (Q2Qc (inject_Z z) + 1)%Qc = Q2Qc (inject_Z (z + 1)).
Proof.
  apply Qc_is_canon. cbn [this Qcplus Q2Qc].
  rewrite !Qred_correct, inject_Z_plus. reflexivity.
Qed.

Lemma output_size_same (size kernel pad : Z) :
  kernel = (2 * pad + 1)%Z → (0 ≤ size ≤ 2 ^ 53)%Z →
  output_size size kernel 1 pad 1 = inr size.
Proof.
  intros -> Hs. unfold output_size, truediv.
  rewrite decide_False by done.
  replace (size + 2 * pad - 1 * (2 * pad + 1 - 1) - 1)%Z with (size - 1)%Z by lia.
  rewrite Qcdiv_1_r, round64_Z by lia.
  unfold float_add. rewrite Q2Qc_inject_Z_plus_1, round64_Z by lia.
  cbn [floor this Q2Qc]. rewrite Qred_Z, Qfloor_Z. f_equal. lia.
Qed.


Lemma binade_le (q : Q) (B : Z) :
  (0 ≤ B)%Z → (Qabs q < 2 ^ (B + 1))%Q → (binade q ≤ B)%Z.
Proof.
  intros HB Hq. unfold binade.
  set (n := Z.abs (Qnum q)). set (d := Zpos (Qden q)).
  set (c := (Z.log2 n - Z.log2 d)%Z).
  destruct (Qle_bool (2 ^ c) (Qabs q)) eqn:Htest.
  - apply Qle_bool_iff in Htest.
    assert (2 ^ c < 2 ^ (B + 1))%Q as Hlt by (eapply Qle_lt_trans; eauto).
    apply Qpower_lt_compat_l_inv in Hlt; [lia|done].
  - destruct (decide (n = 0%Z)) as [Hn|Hn].
    + subst c. rewrite Hn. change (Z.log2 0) with 0%Z.
      pose proof (Z.log2_nonneg d). lia.
    + assert (2 ^ (c - 1) <= Qabs q)%Q as Hlo.
      { assert (Qabs q == inject_Z n / inject_Z d)%Q as ->.
        { destruct q as [qn qd]. unfold n, d. cbn [Qnum Qden].
          rewrite <-Zabs_Qabs. apply Qmake_Qdiv. }
        assert (0 < inject_Z d)%Q as Hd by (by rewrite <-(Zlt_Qlt 0)).
        apply Qle_shift_div_l; [done|].
        pose proof (Z.log2_spec n ltac:(lia)) as [Hn1 _].
        pose proof (Z.log2_spec d ltac:(done)) as [_ Hd2].
        pose proof (Z.log2_nonneg n) as Hln. pose proof (Z.log2_nonneg d) as Hld.
        apply Qle_trans with (2 ^ (c - 1) * inject_Z (2 ^ Z.succ (Z.log2 d)))%Q.
        - apply Qmult_le_l; [apply two_pow_pos|]. rewrite <-Zle_Qle. lia.
        - rewrite <-two_pow_Z by lia. rewrite <-Qpower_plus by done.
          replace (c - 1 + Z.succ (Z.log2 d))%Z with (Z.log2 n) by lia.
          rewrite two_pow_Z by done. by rewrite <-Zle_Qle. }
      assert (2 ^ (c - 1) < 2 ^ (B + 1))%Q as Hlt by (eapply Qle_lt_trans; eauto).
      apply Qpower_lt_compat_l_inv in Hlt; [lia|done].
Qed.

(** Below [2 ^ 26] the rounded number is within [2 ^ -28] of the exact
    one, and rounding does not cross an integer downwards. *)
Lemma round64_near (q : Qc) :
  (Qabs q < 2 ^ 26)%Q →
  ∃ x : Qc, round64 q = Some x
            ∧ (∀ k : Z, (inject_Z k <= q)%Q → (inject_Z k <= x)%Q)
            ∧ (x <= q + (1 # 2 ^ 28))%Q.
Proof.
  intros Hq. unfold round64, ulp.
  pose proof (binade_le q 25 ltac:(done) Hq) as Hb.
  set (e := (Z.max (binade q) (-1022) - 52)%Z).
  assert (-1074 ≤ e ≤ -27)%Z as He by lia.
  set (u := (2 ^ e)%Q).
  assert (0 < u)%Q as Hu by apply two_pow_pos.
  assert (u <= 1 # 2 ^ 27)%Q as Hu27.
  { change (1 # 2 ^ 27)%Q with (2 ^ (-27))%Q. apply Qpower_le_compat_l; [lia|lra]. }
  set (m := rne (q / u)).
  assert (inject_Z m * u <= q + (1 # 2 ^ 28))%Q as Hhi.
  { pose proof (rne_le (q / u)) as Hm. fold m in Hm.
    apply Qle_trans with ((q / u + (1 # 2)) * u)%Q.
    - by apply Qmult_le_compat_r; [|apply Qlt_le_weak].
    - assert ((q / u + (1 # 2)) * u == q + u * (1 # 2))%Q as -> by (field; lra).
      revert Hu27. generalize u. intros v Hv.
      change (2 ^ 27)%positive with 134217728%positive in Hv.
      change (2 ^ 28)%positive with 268435456%positive. lra. }
  assert (∀ k : Z, (inject_Z k <= q)%Q → (inject_Z k <= inject_Z m * u)%Q) as Hlo.
  { intros k Hk.
    assert (inject_Z k / u == inject_Z (k * 2 ^ (- e)))%Q as Hku.
    { rewrite inject_Z_mult, <-two_pow_Z by lia. unfold u. rewrite Qpower_opp.
      field. apply Qpower_not_0. discriminate. }
    assert (k * 2 ^ (- e) ≤ m)%Z as Hkm.
    { etrans; [|apply rne_ge_floor].
      rewrite <-(Qfloor_Z (k * 2 ^ (- e))), <-Hku. apply Qfloor_resp_le.
      by apply Qmult_le_compat_r; [|apply Qlt_le_weak, Qinv_lt_0_compat]. }
    rewrite Zle_Qle in Hkm. rewrite <-Hku in Hkm.
    apply (Qmult_le_compat_r _ _ u) in Hkm; [|by apply Qlt_le_weak].
    assert (inject_Z k / u * u == inject_Z k)%Q as Heq by (field; lra).
    by rewrite Heq in Hkm. }
  assert (Qle_bool (2 ^ 1024) (Qabs (inject_Z m * u)) = false) as ->.
  { apply not_true_is_false. rewrite Qle_bool_iff. intros Hle.
    apply Qabs_Qlt_condition in Hq as [Hq1 Hq2].
    pose proof (Hlo (- 2 ^ 26)%Z) as Hlo'.
    assert (Qabs (inject_Z m * u) <= 2 ^ 27)%Q as Habs.
    { revert Hlo' Hhi Hq1 Hq2. generalize (inject_Z m * u)%Q (this q). intros X Y.
      change (inject_Z (- 2 ^ 26)) with (- (67108864))%Q.
      change (2 ^ 26)%Q with 67108864%Q. change (2 ^ 27)%Q with 134217728%Q.
      change (2 ^ 28)%positive with 268435456%positive.
      intros Hlo' Hhi Hq1 Hq2. apply Qabs_Qle_condition.
      assert (- (67108864) <= X)%Q by (apply Hlo'; lra). lra. }
    assert (2 ^ 27 < 2 ^ 1024)%Q as Hpow by (by apply Qpower_lt_compat_l).
    apply (Qlt_irrefl (2 ^ 27)). eapply Qlt_le_trans; [exact Hpow|].
    eapply Qle_trans; [exact Hle|exact Habs]. }
  eexists. split; [done|]. cbn [this Q2Qc]. split.
  - intros k Hk. rewrite Qred_correct. by apply Hlo.
  - by rewrite Qred_correct.
Qed.

Lemma Q2Qc_div (a b : Z) :
  (this (Q2Qc (inject_Z a) / Q2Qc (inject_Z b))%Qc == inject_Z a / inject_Z b)%Q.
Proof.
  cbn [this Qcdiv Qcmult Qcinv Q2Qc]. by rewrite !Qred_correct.
Qed.

Lemma Qfloor_unique (x : Q) (k : Z) :
  (inject_Z k <= x)%Q → (x < inject_Z (k + 1))%Q → Qfloor x = k.
Proof.
  intros Hlo Hhi. apply Z.le_antisymm.
  - assert (Qfloor x < k + 1)%Z; [|lia].
    rewrite Zlt_Qlt. eapply Qle_lt_trans; [apply Qfloor_le|done].
  - rewrite <-(Qfloor_Z k). by apply Qfloor_resp_le.
Qed.

Lemma output_size_closed_form (size kernel stride pad dilation : Z) :
  let n := (size + 2 * pad - dilation * (kernel - 1) - 1)%Z in
  (1 ≤ stride ≤ 2 ^ 25)%Z → (Z.abs n ≤ 2 ^ 25)%Z →
  output_size size kernel stride pad dilation = inr (n / stride + 1)%Z.
Proof.
  intros n Hs Hn. unfold output_size, truediv. fold n.
  rewrite decide_False by lia.
  set (q := (Q2Qc (inject_Z n) / Q2Qc (inject_Z stride))%Qc).
  set (k := (n / stride)%Z).
  assert (this q == inject_Z n / inject_Z stride)%Q as Hqv by apply Q2Qc_div.
  assert (0 < inject_Z stride)%Q as Hs0 by (rewrite <-(Zlt_Qlt 0); lia).
  assert (inject_Z k <= q)%Q as Hk1.
  { rewrite Hqv. unfold k. rewrite Zdiv_Qdiv. apply Qfloor_le. }
  assert (q <= inject_Z k + 1 - (1 # 2 ^ 25))%Q as Hk2.
  { assert (n + 1 ≤ stride * (k + 1))%Z as Hn1.
    { pose proof (Z.mod_pos_bound n stride ltac:(lia)).
      pose proof (Z.div_mod n stride ltac:(lia)). unfold k. lia. }
    rewrite Zle_Qle, inject_Z_mult, !inject_Z_plus in Hn1.
    assert (inject_Z stride <= 2 ^ 25)%Q as Hs25.
    { rewrite two_pow_Z by done. rewrite <-Zle_Qle. lia. }
    rewrite Hqv. apply Qle_shift_div_r; [done|].
    revert Hn1 Hs0 Hs25. generalize (inject_Z n) (inject_Z stride) (inject_Z k).
    intros N S K. change (inject_Z 1) with 1%Q. change (2 ^ 25)%Q with 33554432%Q.
    change (2 ^ 25)%positive with 33554432%positive. intros. nra. }
  assert (- 2 ^ 25 ≤ k ≤ 2 ^ 25)%Z as Hkb.
  { unfold k. split.
    - apply Z.div_le_lower_bound; lia.
    - apply Z.div_le_upper_bound; lia. }
  assert (- 2 ^ 25 <= inject_Z k <= 2 ^ 25)%Q as HkQ.
  { rewrite two_pow_Z by done. change (- inject_Z (2 ^ 25))%Q with (inject_Z (- 2 ^ 25)).
    rewrite <-!Zle_Qle. lia. }
  destruct (round64_near q) as (x & -> & Hx1 & Hx2).
  { apply Qabs_Qlt_condition. revert Hk1 Hk2 HkQ. generalize (this q) (inject_Z k).
    intros Y K. change (2 ^ 25)%Q with 33554432%Q. change (2 ^ 26)%Q with 67108864%Q.
    change (2 ^ 25)%positive with 33554432%positive. intros. lra. }
  specialize (Hx1 k Hk1).
  assert (this (x + 1)%Qc == x + 1)%Q as Hyv.
  { cbn [this Qcplus Q2Qc]. by rewrite Qred_correct. }
  unfold float_add.
  destruct (round64_near (x + 1)%Qc) as (y & -> & Hy1 & Hy2).
  { rewrite Hyv. apply Qabs_Qlt_condition.
    revert Hx1 Hx2 Hk1 Hk2 HkQ. generalize (this x) (this q) (inject_Z k).
    intros X Y K. change (2 ^ 25)%Q with 33554432%Q. change (2 ^ 26)%Q with 67108864%Q.
    change (2 ^ 25)%positive with 33554432%positive.
    change (2 ^ 28)%positive with 268435456%positive. intros. lra. }
  cbn [floor]. f_equal. apply Qfloor_unique.
  - apply Hy1. rewrite Hyv, inject_Z_plus. change (inject_Z 1) with 1%Q. lra.
  - rewrite Hyv in Hy2. rewrite !inject_Z_plus. change (inject_Z 1) with 1%Q.
    revert Hx1 Hx2 Hk1 Hk2 Hy2. generalize (this x) (this y) (this q) (inject_Z k).
    intros X Y Q' K.
    change (2 ^ 25)%positive with 33554432%positive.
    change (2 ^ 28)%positive with 268435456%positive. intros. lra.
Qed.

Lemma output_size_error (size kernel stride pad dilation : Z) :
  output_size size kernel stride pad dilation = inl ZeroDivisionError ↔ stride = 0%Z.
Proof.
  unfold output_size, truediv, float_add, floor. split.
  - intros Herr. destruct (decide (stride = 0%Z)); [done|].
    destruct (round64 _) as [x|]; [|done]. by destruct (round64 _).
  - intros ->. by rewrite decide_True.
Qed.

(** X6.  The helper raises [ZeroDivisionError] exactly when the stride is
    zero.  For a stride from 1 to [2 ^ 25] and sizes for which
    [size + 2*pad - dilation*(kernel - 1) - 1] is at most [2 ^ 25] in
    absolute value, rounding does not show: each output size is the floor
    quotient of that number by the stride, plus one; an integer kernel
    size counts for both axes. *)
Theorem conv_output_shape_closed_form
    (h w : Z) (kernel_size : kernel_arg) (stride pad dilation : Z) :
  let kh := match kernel_size with KInt k => k | KTuple kh _ => kh end in
  let kw := match kernel_size with KInt k => k | KTuple _ kw => kw end in
  let nh := (h + 2 * pad - dilation * (kh - 1) - 1)%Z in
  let nw := (w + 2 * pad - dilation * (kw - 1) - 1)%Z in
  (_conv_output_shape (h, w) kernel_size stride pad dilation = inl ZeroDivisionError
   ↔ stride = 0%Z)
  ∧ ((1 ≤ stride ≤ 2 ^ 25)%Z → (Z.abs nh ≤ 2 ^ 25)%Z → (Z.abs nw ≤ 2 ^ 25)%Z →
     _conv_output_shape (h, w) kernel_size stride pad dilation
     = inr ((nh / stride + 1)%Z, (nw / stride + 1)%Z)).
Proof.
  intros kh kw nh nw. unfold _conv_output_shape. cbn [fst snd].
  assert ((match kernel_size with KInt k => (k, k) | KTuple kh kw => (kh, kw) end)
          = (kh, kw)) as -> by (by destruct kernel_size).
  cbn [fst snd]. split.
  - split.
    + destruct (output_size h kh stride pad dilation) as [e|oh] eqn:Hh.
      * intros [= ->]. by apply output_size_error in Hh.
      * destruct (output_size w kw stride pad dilation) as [e|ow] eqn:Hw; [|done].
        intros [= ->]. by apply output_size_error in Hw.
    + intros Hs.
      by rewrite (proj2 (output_size_error h kh stride pad dilation) Hs).
  - intros Hs Hnh Hnw. by rewrite !output_size_closed_form.
Qed.

Lemma conv_output_shape_closed_form_witness :
  _conv_output_shape (16, 21)%Z (KTuple 5 3) 2 2 1 = inr (8, 12)%Z.
Proof.
  refine (proj2 (conv_output_shape_closed_form 16 21 (KTuple 5 3) 2 2 1) _ _ _).
  - lia.
  - vm_compute. discriminate.
  - vm_compute. discriminate.
Defined.

(** X7.  With stride 1, dilation 1 and the padding [(kernel - 1) / 2] of
    an odd kernel, the padding rule written above the encoders, the helper
    returns the input size, for sizes up to [2 ^ 53]: this holds for the
    three kernel and padding pairs used by the layers of this file,
    (5, 2), (3, 1) and (1, 0). *)
Theorem conv_output_shape_same_padding (h w k pad : Z) :
  k = (2 * pad + 1)%Z → (0 ≤ h ≤ 2 ^ 53)%Z → (0 ≤ w ≤ 2 ^ 53)%Z →
  _conv_output_shape (h, w) (KInt k) 1 pad 1 = inr (h, w).
Proof.
  intros Hk Hh Hw. unfold _conv_output_shape. cbn [fst snd].
  by rewrite !output_size_same.
Qed.

Lemma conv_output_shape_same_padding_witness :
  _conv_output_shape (16, 16)%Z (KInt 5) 1 2 1 = inr (16, 16)%Z.
Proof.
  apply (conv_output_shape_same_padding 16 16 5 2).
  - reflexivity.
  - lia.
  - lia.
Defined.

(** ** More on the module-level encoders *)

Lemma call_conv_stack_wrong_channels `{arglist} (σ : list tensor) (cin : nat) (l : loc)
    (x : tensor) (n c h wd : nat) :
  shape x = [n; c; h; wd] → c ≠ cin →
  call σ (conv_stack cin l) x = Err RuntimeError.
Proof.
  intros Hsh Hc. unfold conv_stack. cbn [call].
  assert (conv2d cin 16 5 1 2 (param σ l) (param σ (1 + l)) x = Err RuntimeError) as ->;
    [|done].
  unfold conv2d. rewrite Hsh. rewrite decide_False; [done|]. by intros [? _].
Qed.

(** X12.  The two spatial encoders created when the file is imported keep
    the grid, whatever its size.  [conv_minimap] maps a well-formed
    [(N, 7, h, w)] tensor, and [conv_screen] a well-formed [(N, 17, h, w)]
    tensor, with [h, w >= 1], to a well-formed [(N, 32, h, w)] tensor; on
    an input with another number of channels the call raises a
    [RuntimeError]. *)
Theorem spatial_encoders_keep_the_grid `{arglist} `{init_schemes}
    (s0 s1 : state) (G : globals) (σ : list tensor)
    (x : tensor) (N c h wd : nat) :
  import s0 = (G, s1) → has_shape [N; c; h; wd] x → 0 < h → 0 < wd →
  (if decide (c = minimap_channels)
   then ∃ y, call σ (conv_minimap G) x = Ok y ∧ has_shape [N; 32; h; wd] y
   else call σ (conv_minimap G) x = Err RuntimeError)
  ∧ (if decide (c = screen_channels)
     then ∃ y, call σ (conv_screen G) x = Ok y ∧ has_shape [N; 32; h; wd] y
     else call σ (conv_screen G) x = Err RuntimeError).
Proof.
  intros Himp Hx Hh Hw.
  destruct (import_run s0) as (s1' & Himp' & _). rewrite Himp' in Himp.
  apply (f_equal fst) in Himp. cbn [fst] in Himp. subst G.
  cbn [conv_minimap conv_screen globals_at]. split; case_decide as Hc.
  - subst c. by apply maps_conv_stack.
  - by apply (call_conv_stack_wrong_channels σ _ _ x N c h wd); [apply Hx|].
  - subst c. by apply maps_conv_stack.
  - by apply (call_conv_stack_wrong_channels σ _ _ x N c h wd); [apply Hx|].
Qed.

Lemma spatial_encoders_keep_the_grid_witness :
  (if decide (17 = minimap_channels)
   then ∃ y, call (H := small_config) (store run_import.2) (conv_minimap run_import.1)
               (Tensor [2; 17; 3; 4] (replicate 408 one)) = Ok y
             ∧ has_shape [2; 32; 3; 4] y
   else call (H := small_config) (store run_import.2) (conv_minimap run_import.1)
          (Tensor [2; 17; 3; 4] (replicate 408 one)) = Err RuntimeError)
  ∧ (if decide (17 = screen_channels)
     then ∃ y, call (H := small_config) (store run_import.2) (conv_screen run_import.1)
                 (Tensor [2; 17; 3; 4] (replicate 408 one)) = Ok y
               ∧ has_shape [2; 32; 3; 4] y
     else call (H := small_config) (store run_import.2) (conv_screen run_import.1)
            (Tensor [2; 17; 3; 4] (replicate 408 one)) = Err RuntimeError).
Proof.
  refine (spatial_encoders_keep_the_grid (H := small_config) (H0 := position_schemes)
            (State [] 0) run_import.2 run_import.1 (store run_import.2)
            (Tensor [2; 17; 3; 4] (replicate 408 one)) 2 17 3 4
            (surjective_pairing _) _ _ _).
  - split; reflexivity.
  - lia.
  - lia.
Defined.

(** ** More on [ActorNet.forward] and [CriticNet.forward] *)

(** X13.  Lines 56 to 67 of [ActorNet.forward] work for every batch size:
    for an actor constructed from the imported module-level objects and an
    observation of the fixed shapes with [N] examples, the hidden state is
    a well-formed [(N, 64, FEAT2DSIZE, FEAT2DSIZE)] tensor and the
    categorical head gives a well-formed [(N, NUM_ACTIONS)] tensor of raw
    outputs. *)
Theorem actor_hidden_state_and_raw_outputs `{arglist} `{init_schemes}
    (s0 s1 s s' : state) (G : globals) (actor : module)
    (σ : list tensor) (N : nat) (obs : observation) :
  import s0 = (G, s1) → ActorNet.__init__ G s = (actor, s') →
  0 < FEAT2DSIZE → fixed_observation N obs →
  ∃ state_h raw,
    hidden_and_raw σ actor obs = Ok (state_h, raw)
    ∧ has_shape [N; 64; FEAT2DSIZE; FEAT2DSIZE] state_h
    ∧ has_shape [N; NUM_ACTIONS] raw.
Proof.
  intros Himp Hinit HF Hobs.
  destruct (import_run s0) as (s1' & Himp' & _). rewrite Himp' in Himp.
  apply (f_equal fst) in Himp. cbn [fst] in Himp. subst G.
  apply ActorNet_init_built in Hinit as [-> _].
  by apply hidden_and_raw_run.
Qed.

Lemma actor_hidden_state_and_raw_outputs_witness :
  ∃ state_h raw,
    hidden_and_raw (H := small_config) (store run_actor.2) run_actor.1
      small_observation = Ok (state_h, raw)
    ∧ has_shape [1; 64; 1; 1] state_h
    ∧ has_shape [1; 2] raw.
Proof.
  refine (actor_hidden_state_and_raw_outputs
            (H := small_config) (H0 := position_schemes)
            (State [] 0) run_import.2 run_import.2 run_actor.2
            run_import.1 run_actor.1 (store run_actor.2) 1 small_observation
            (surjective_pairing _) (surjective_pairing _) _ _).
  - apply le_n.
  - exact small_observation_fixed.
Defined.

(** X14.  The two spatial heads that [ActorNet.__init__] registers, under
    the names [layer_screen1] and [layer_screen2], are separate layers with
    their own tensors, and each maps a well-formed hidden state of
    [(N, 64, FEAT2DSIZE, FEAT2DSIZE)] to a well-formed single-channel map
    [(N, 1, FEAT2DSIZE, FEAT2DSIZE)], for every batch size. *)
Theorem spatial_heads_give_one_channel_maps `{arglist} `{init_schemes}
    (s s' : state) (G : globals) (actor : module)
    (σ : list tensor) (N : nat) (state_h : tensor) :
  ActorNet.__init__ G s = (actor, s') →
  0 < FEAT2DSIZE → has_shape [N; 64; FEAT2DSIZE; FEAT2DSIZE] state_h →
  ∃ f1 f2,
    getattr actor "layer_screen1" = Ok f1
    ∧ getattr actor "layer_screen2" = Ok f2
    ∧ (∀ l, l ∈ parameters f1 → l ∉ parameters f2)
    ∧ (∃ y, call σ f1 state_h = Ok y ∧ has_shape [N; 1; FEAT2DSIZE; FEAT2DSIZE] y)
    ∧ (∃ y, call σ f2 state_h = Ok y ∧ has_shape [N; 1; FEAT2DSIZE; FEAT2DSIZE] y).
Proof.
  intros Hinit HF Hh.
  apply ActorNet_init_built in Hinit as [-> _].
  eexists _, _. split_and!; [reflexivity|reflexivity| | |].
  - cbn [parameters]. intros l Hl Hl'.
    rewrite !elem_of_cons, elem_of_nil in Hl, Hl'. lia.
  - by apply maps_Conv2d_same.
  - by apply maps_Conv2d_same.
Qed.

Lemma spatial_heads_give_one_channel_maps_witness :
  ∃ f1 f2,
    getattr run_actor.1 "layer_screen1" = Ok f1
    ∧ getattr run_actor.1 "layer_screen2" = Ok f2
    ∧ (∀ l, l ∈ parameters f1 → l ∉ parameters f2)
    ∧ (∃ y, call (H := small_config) (store run_actor.2) f1
              (Tensor [3; 64; 1; 1] (replicate 192 one)) = Ok y
            ∧ has_shape [3; 1; 1; 1] y)
    ∧ (∃ y, call (H := small_config) (store run_actor.2) f2
              (Tensor [3; 64; 1; 1] (replicate 192 one)) = Ok y
            ∧ has_shape [3; 1; 1; 1] y).
Proof.
  refine (spatial_heads_give_one_channel_maps
            (H := small_config) (H0 := position_schemes)
            run_import.2 run_actor.2 run_import.1 run_actor.1
            (store run_actor.2) 3 (Tensor [3; 64; 1; 1] (replicate 192 one))
            (surjective_pairing _) _ _).
  - apply le_n.
  - split; reflexivity.
Defined.

Lemma cat_batch_mismatch (t0 t : tensor) (ts : list tensor) (n n' c0 c h wd : nat) :
  shape t0 = [n; c0; h; wd] → shape t = [n'; c; h; wd] → n ≠ n' → t ∈ ts →
  cat (t0 :: ts) 1 = Err RuntimeError.
Proof.
  intros Ht0 Ht Hn Hin. unfold cat.
  rewrite decide_True by (rewrite Ht0; cbn; lia).
  destruct (forallb _ _) eqn:Hall; [|done]. exfalso.
  rewrite forallb_forall in Hall.
  specialize (Hall t). rewrite bool_decide_eq_true in Hall.
  destruct Hall as (_ & Htake & _); [apply list_elem_of_In; by right|].
  rewrite Ht, Ht0 in Htake. cbn in Htake. congruence.
Qed.

(** X15.  [CriticNet.forward] needs as many examples in the action as in
    the observation.  For a critic constructed from the imported
    module-level objects, an observation of the fixed shapes with [N]
    examples and an action of the fixed shapes with [N' <> N] examples,
    all five encoders succeed and the concatenation of their outputs raises
    a [RuntimeError]. *)
Theorem critic_rejects_mismatched_batches `{arglist} `{init_schemes}
    (s0 s1 s s' : state) (G : globals) (critic : module)
    (σ : list tensor) (N N' : nat) (obs : observation) (act : action) :
  import s0 = (G, s1) → CriticNet.__init__ G s = (critic, s') →
  0 < FEAT2DSIZE → fixed_observation N obs → fixed_action N' act → N ≠ N' →
  CriticNet.forward σ critic obs act = Err RuntimeError.
Proof.
  intros Himp Hinit HF (Hmm & Hsc & Hns) (Hac & Hs1 & Hs2) HN.
  destruct (import_run s0) as (s1' & Himp' & _). rewrite Himp' in Himp.
  apply (f_equal fst) in Himp. cbn [fst] in Himp. subst G.
  apply CriticNet_init_built in Hinit as [-> _].
  set (l0 := length (store s0)). set (l := length (store s)).
  destruct (maps_conv_stack σ minimap_channels l0 N _ _ HF HF _ Hmm) as (m & Em & Hm).
  destruct (maps_conv_stack σ screen_channels (4 + l0) N _ _ HF HF _ Hsc) as (sc & Es & Hs).
  destruct (maps_dense_block σ (8 + l0) N _ Hns) as (n & En & Hn).
  destruct (cat_channels N' FEAT2DSIZE FEAT2DSIZE [screen1 act; screen2 act] [1; 1])
    as (x & Ex & Hx & _); [done|repeat (constructor; [assumption|]); constructor|].
  destruct (maps_conv_stack σ 2 l N' _ _ HF HF _ Hx) as (a_spatial & Ea & Ha).
  destruct (maps_dense_block σ (4 + l) N' _ Hac) as (a_nonspatial & Eb & Hb).
  unfold CriticNet.forward.
  assert (getattr (critic_at (globals_at l0) l) "minimap_conv_layers"
          = Ok (conv_stack minimap_channels l0)) as -> by reflexivity.
  assert (getattr (critic_at (globals_at l0) l) "screen_conv_layers"
          = Ok (conv_stack screen_channels (4 + l0))) as -> by reflexivity.
  assert (getattr (critic_at (globals_at l0) l) "nonspatial_dense"
          = Ok (dense_block (8 + l0))) as -> by reflexivity.
  assert (getattr (critic_at (globals_at l0) l) "conv_action"
          = Ok (conv_stack 2 l)) as -> by reflexivity.
  assert (getattr (critic_at (globals_at l0) l) "action_dense"
          = Ok (dense_block (4 + l))) as -> by reflexivity.
  cbn [mbind result_bind].
  rewrite Em; cbn [mbind result_bind]. rewrite Es; cbn [mbind result_bind].
  rewrite En; cbn [mbind result_bind]. rewrite Ex; cbn [mbind result_bind].
  rewrite Ea; cbn [mbind result_bind]. rewrite Eb; cbn [mbind result_bind].
  rewrite (cat_batch_mismatch m a_spatial _ N N' 32 32 FEAT2DSIZE FEAT2DSIZE);
    [done|apply Hm|apply Ha|done|].
  rewrite !elem_of_cons. auto.
Qed.

Lemma critic_rejects_mismatched_batches_witness :
  CriticNet.forward (H := small_config) (store run_critic.2) run_critic.1
    small_observation
    (Action (Tensor [2; 2] (replicate 4 one))
            (Tensor [2; 1; 1; 1] [one; zero]) (Tensor [2; 1; 1; 1] [zero; one]))
  = Err RuntimeError.
Proof.
  refine (critic_rejects_mismatched_batches
            (H := small_config) (H0 := position_schemes)
            (State [] 0) run_import.2 run_actor.2 run_critic.2
            run_import.1 run_critic.1 (store run_critic.2) 1 2
            small_observation _
            (surjective_pairing _) (surjective_pairing _) _ _ _ _).
  - apply le_n.
  - exact small_observation_fixed.
  - repeat split.
  - lia.
Defined.

(** ** More on construction *)

Lemma init_frame `{arglist} `{init_schemes}
    (self : module) (s sa : state) (k : nat) (l : loc) :
  grows s sa k → l < length (store s) → l ∉ module_parameters self →
  store (apply_module init_weights self sa).2 !! l = store s !! l.
Proof.
  intros (σnew & _ & Hst & _) Hl Hnot. rewrite apply_module_init_weights.
  destruct (reinit_all_spec (module_parameters self) sa) as (_ & _ & Hout & _).
  cbn zeta in Hout. rewrite Hout by done. rewrite Hst. by apply lookup_app_l.
Qed.

Lemma init_shapes `{arglist} `{init_schemes}
    (self : module) (s sa : state) (k : nat) (l : loc) (t : tensor) :
  grows s sa k → store s !! l = Some t →
  ∃ t', store (apply_module init_weights self sa).2 !! l = Some t'
        ∧ shape t' = shape t.
Proof.
  intros (σnew & _ & Hst & _) Ht. rewrite apply_module_init_weights.
  assert (store sa !! l = Some t) as Hsa
    by (rewrite Hst; by apply lookup_app_l_Some).
  destruct (reinit_all_spec (module_parameters self) sa) as (_ & _ & Hout & Hin).
  cbn zeta in *. destruct (decide (l ∈ module_parameters self)) as [Hl|Hl].
  - destruct (Hin l t Hl Hsa) as (p & _ & _ & Hp). eexists. split; [exact Hp|done].
  - exists t. by rewrite Hout.
Qed.

(** X17.  A constructor writes only to the shared encoders and to what it
    allocates.  [ActorNet.__init__] and [CriticNet.__init__] leave every
    tensor that was in the store before the call and is not a tensor of
    the three module-level encoders exactly as it was; in particular
    constructing a critic does not touch the fusion layer and the heads of
    an actor constructed before. *)
Theorem constructors_leave_other_tensors_alone `{arglist} `{init_schemes}
    (G : globals) (s s' : state) (self : module) (l : loc) :
  ActorNet.__init__ G s = (self, s') ∨ CriticNet.__init__ G s = (self, s') →
  l < length (store s) → l ∉ encoder_parameters G →
  store s' !! l = store s !! l.
Proof.
  intros [Hinit|Hinit] Hl Hnot.
  - destruct (ActorNet_alloc G s) as (sa & Hg & Heq). rewrite Heq in Hinit.
    apply (f_equal snd) in Hinit. cbn [snd] in Hinit. subst s'.
    apply (init_frame _ s sa 10); [done..|].
    rewrite module_parameters_actor_at, elem_of_app, elem_of_seq. intros [?|?]; [done|lia].
  - destruct (CriticNet_alloc G s) as (sa & Hg & Heq). rewrite Heq in Hinit.
    apply (f_equal snd) in Hinit. cbn [snd] in Hinit. subst s'.
    apply (init_frame _ s sa 12); [done..|].
    rewrite module_parameters_critic_at, elem_of_app, elem_of_seq. intros [?|?]; [done|lia].
Qed.

Lemma constructors_leave_other_tensors_alone_witness :
  store run_critic.2 !! 12 = store run_actor.2 !! 12.
Proof.
  refine (constructors_leave_other_tensors_alone
            (H := small_config) (H0 := position_schemes)
            run_import.1 run_actor.2 run_critic.2 run_critic.1 12
            (or_intror (surjective_pairing _)) _ _).
  - assert (length (store run_actor.2) = 20) as -> by (vm_compute; reflexivity). lia.
  - assert (encoder_parameters run_import.1 = seq 0 10) as -> by (vm_compute; reflexivity).
    rewrite elem_of_seq. lia.
Defined.

(** X18.  Initialisation keeps shapes.  After [ActorNet.__init__] or
    [CriticNet.__init__] every tensor that was in the store before the call
    is still there with the shape it had, also the encoder tensors that
    the constructor overwrites. *)
Theorem constructors_keep_shapes `{arglist} `{init_schemes}
    (G : globals) (s s' : state) (self : module) (l : loc) (t : tensor) :
  ActorNet.__init__ G s = (self, s') ∨ CriticNet.__init__ G s = (self, s') →
  store s !! l = Some t →
  ∃ t', store s' !! l = Some t' ∧ shape t' = shape t.
Proof.
  intros [Hinit|Hinit] Ht.
  - destruct (ActorNet_alloc G s) as (sa & Hg & Heq). rewrite Heq in Hinit.
    apply (f_equal snd) in Hinit. cbn [snd] in Hinit. subst s'.
    by apply (init_shapes _ s sa 10).
  - destruct (CriticNet_alloc G s) as (sa & Hg & Heq). rewrite Heq in Hinit.
    apply (f_equal snd) in Hinit. cbn [snd] in Hinit. subst s'.
    by apply (init_shapes _ s sa 12).
Qed.

(** The tensor at location 2 (the weight of the second convolution of
    [conv_minimap]) when the actor of the concrete run has been built. *)
Definition run_tensor_2 : tensor :=
  default (Tensor [] []) (store run_actor.2 !! 2).

Lemma constructors_keep_shapes_witness :
  ∃ t', store run_critic.2 !! 2 = Some t' ∧ shape t' = shape run_tensor_2.
Proof.
  refine (constructors_keep_shapes
            (H := small_config) (H0 := position_schemes)
            run_import.1 run_actor.2 run_critic.2 run_critic.1 2 run_tensor_2
            (or_intror (surjective_pairing _)) _).
  vm_compute. reflexivity.
Defined.

Lemma encoder_parameters_globals_at `{arglist} (l0 : loc) :
  encoder_parameters (globals_at l0) = seq l0 10.
Proof. reflexivity. Qed.

(** X19.  The networks hold each tensor once.  For networks constructed
    after the import from the imported module-level objects,
    [parameters()] of an [ActorNet] lists 20 pairwise distinct tensors and
    [parameters()] of a [CriticNet] lists 22: the three encoders share no
    tensor with each other nor with the layers of the network. *)
Theorem network_parameters_are_distinct `{arglist} `{init_schemes}
    (s0 s1 sa sa' sc sc' : state) (G : globals) (actor critic : module) :
  import s0 = (G, s1) →
  length (store s1) ≤ length (store sa) → length (store s1) ≤ length (store sc) →
  ActorNet.__init__ G sa = (actor, sa') → CriticNet.__init__ G sc = (critic, sc') →
  NoDup (module_parameters actor) ∧ length (module_parameters actor) = 20
  ∧ NoDup (module_parameters critic) ∧ length (module_parameters critic) = 22.
Proof.
  intros Himp Hla Hlc Ha Hc.
  destruct (import_run s0) as (s1' & Himp' & Hg). rewrite Himp' in Himp.
  pose proof (f_equal fst Himp) as HG. pose proof (f_equal snd Himp) as Hs.
  cbn [fst snd] in HG, Hs. subst G s1'.
  apply grows_length in Hg.
  apply ActorNet_init_built in Ha as [-> _].
  apply CriticNet_init_built in Hc as [-> _].
  rewrite module_parameters_actor_at, module_parameters_critic_at.
  rewrite encoder_parameters_globals_at, !length_app, !length_seq.
  split_and!; [|done| |done].
  - apply NoDup_app. split_and!; [apply NoDup_seq| |apply NoDup_seq].
    intros l Hl%elem_of_seq Hl'%elem_of_seq. lia.
  - apply NoDup_app. split_and!; [apply NoDup_seq| |apply NoDup_seq].
    intros l Hl%elem_of_seq Hl'%elem_of_seq. lia.
Qed.

Lemma network_parameters_are_distinct_witness :
  NoDup (module_parameters run_actor.1) ∧ length (module_parameters run_actor.1) = 20
  ∧ NoDup (module_parameters run_critic.1) ∧ length (module_parameters run_critic.1) = 22.
Proof.
  refine (network_parameters_are_distinct
            (H := small_config) (H0 := position_schemes)
            (State [] 0) run_import.2 run_import.2 run_actor.2 run_actor.2 run_critic.2
            run_import.1 run_actor.1 run_critic.1
            (surjective_pairing _) _ _ (surjective_pairing _) (surjective_pairing _)).
  - apply le_n.
  - assert (length (store run_import.2) = 10) as -> by (vm_compute; reflexivity).
    assert (length (store run_actor.2) = 20) as -> by (vm_compute; reflexivity). lia.
Defined.

(** ** Batches of more than one example in the masking step *)

Lemma mask_batch_error (B A : nat) (p m : list scalar) (shm : list nat) :
  shm = [A] ∨ shm = [B; A] → 1 < B → B ≠ A →
  ActorNet._mask_unavailable_actions (Tensor [B; A] p) (Tensor shm m)
  = Err RuntimeError.
Proof.
  intros Hsh HB HBA. unfold ActorNet._mask_unavailable_actions, mul, binop.
  simpl shape.
  assert (Hb : broadcast_shapes [B; A] shm = Some [B; A]).
  { destruct Hsh as [->| ->]; unfold broadcast_shapes, pad_shape; simpl;
      by rewrite ?broadcast_dim_1_r, ?broadcast_dim_same. }
  rewrite Hb. cbn [mbind result_bind]. unfold sum1. simpl shape.
  cbn [mbind result_bind]. unfold div_, binop_. simpl shape.
  unfold broadcast_shapes, pad_shape. simpl.
  rewrite broadcast_dim_1_r. unfold broadcast_dim.
  repeat case_decide; try done; try lia.
  congruence.
Qed.

(** X16.  [ActorNet.forward] cannot take a batch.  For an actor constructed
    from the imported module-level objects, an observation of the fixed
    shapes with [N > 1] examples, [N <> NUM_ACTIONS], and a mask with one
    entry per action (shared, or one row per example), the encoders, the
    fusion layer and the categorical head succeed and the masking step
    raises a [RuntimeError]. *)
Theorem actor_forward_rejects_batches `{arglist} `{init_schemes}
    (s0 s1 s s' : state) (G : globals) (actor : module)
    (σ : list tensor) (N : nat) (obs : observation) (va : tensor) :
  import s0 = (G, s1) → ActorNet.__init__ G s = (actor, s') →
  0 < FEAT2DSIZE → fixed_observation N obs →
  shape va = [NUM_ACTIONS] ∨ shape va = [N; NUM_ACTIONS] →
  1 < N → N ≠ NUM_ACTIONS →
  ActorNet.forward σ actor obs va = Err RuntimeError.
Proof.
  intros Himp Hinit HF Hobs Hva HN HNA.
  destruct (import_run s0) as (s1' & Himp' & _). rewrite Himp' in Himp.
  apply (f_equal fst) in Himp. cbn [fst] in Himp. subst G.
  apply ActorNet_init_built in Hinit as [-> _].
  rewrite forward_after_mask.
  destruct (hidden_and_raw_run σ (length (store s0)) (length (store s)) N obs HF Hobs)
    as (state_h & [shr p] & -> & _ & [Hshr _]).
  cbn [mbind result_bind fst snd shape] in *. subst shr.
  destruct va as [shm m]. cbn [shape] in Hva.
  by rewrite (mask_batch_error N NUM_ACTIONS).
Qed.

Lemma actor_forward_rejects_batches_witness :
  ActorNet.forward (H := small_config) (store run_actor.2) run_actor.1
    (Observation (Tensor [3; 7; 1; 1] (replicate 21 one))
                 (Tensor [3; 17; 1; 1] (replicate 51 one))
                 (Tensor [3; 2] (replicate 6 one)))
    (vec [1; 1]%Z)
  = Err RuntimeError.
Proof.
  refine (actor_forward_rejects_batches
            (H := small_config) (H0 := position_schemes)
            (State [] 0) run_import.2 run_import.2 run_actor.2
            run_import.1 run_actor.1 (store run_actor.2) 3 _ (vec [1; 1]%Z)
            (surjective_pairing _) (surjective_pairing _) _ _ _ _ _).
  - apply le_n.
  - repeat split.
  - left. reflexivity.
  - lia.
  - cbn. lia.
Defined.

Lemma get_lookup (d : list scalar) (i : nat) (x : scalar) :
  d !! i = Some x → get d i = x.
Proof. intros Hi. unfold get. by rewrite nth_lookup, Hi. Qed.

Lemma length_tiled (v : list scalar) (k : nat) :
  length (mjoin (replicate k v)) = k * length v.
Proof.
  induction k as [|k IHk]; [done|].
  change (mjoin (replicate (S k) v)) with (v ++ mjoin (replicate k v)).
  rewrite length_app, IHk. lia.
Qed.

Lemma lookup_tiled (v : list scalar) (B i j : nat) :
  length v = B → i < B → j < B →
  mjoin (replicate B v) !! (i * B + j) = v !! j.
Proof.
  intros Hv Hi Hj.
  assert (Hgen : ∀ n k, k < n → mjoin (replicate n v) !! (k * B + j) = v !! j).
  { clear i Hi. induction n as [|n IH]; intros k Hk; [lia|].
    change (mjoin (replicate (S n) v)) with (v ++ mjoin (replicate n v)).
    destruct k as [|k].
    - rewrite lookup_app_l by lia. done.
    - rewrite lookup_app_r by lia.
      replace (S k * B + j - length v) with (k * B + j) by lia.
      apply IH. lia. }
  by apply Hgen.
Qed.

(** X11.  When the batch size equals the number of actions the masking
    step returns without error, but normalises by the wrong sums.  For a
    policy of shape [(B, B)], [B > 1], and a mask of shape [(B)], the
    output has shape [(B, B)] and its entry [(i, j)] is the masked entry
    [(i, j)] divided by the sum of the masked row [j], not of row [i]. *)
Theorem square_batch_divides_by_the_sum_of_another_row
    (B : nat) (p m : list scalar) :
  1 < B → length p = B * B → length m = B →
  let masked i j := smul (get p (i * B + j)) (get m j) in
  ∃ out,
    ActorNet._mask_unavailable_actions (Tensor [B; B] p) (Tensor [B] m)
    = Ok (Tensor [B; B] out)
    ∧ length out = B * B
    ∧ ∀ i j, i < B → j < B →
        get out (i * B + j)
        = sdiv (masked i j) (ssum (map (masked j) (seq 0 B))).
Proof.
  intros HB Hp Hm masked.
  unfold ActorNet._mask_unavailable_actions, mul, binop. simpl shape.
  assert (Hb : broadcast_shapes [B; B] [B] = Some [B; B]).
  { unfold broadcast_shapes, pad_shape. simpl.
    by rewrite broadcast_dim_1_r, broadcast_dim_same. }
  rewrite Hb. cbn [mbind result_bind]. unfold expand_to. simpl shape. simpl data.
  change (pad_shape (length [B; B]) [B; B]) with [B; B].
  change (pad_shape (length [B; B]) [B]) with [1; B].
  rewrite (expand_id [B; B] p) by (simpl; lia).
  assert (Htile : ∀ v, length v = B → expand [1; B] [B; B] v = mjoin (replicate B v)).
  { intros v Hv. cbn [expand]. rewrite decide_False by lia.
    do 2 f_equal. apply (expand_id [B]). simpl. lia. }
  rewrite (Htile m Hm).
  set (md := zip_with smul p (mjoin (replicate B m))).
  assert (Hmd_len : length md = B * B).
  { subst md. rewrite length_zip_with, Hp, length_tiled, Hm. lia. }
  assert (Hmd : ∀ i j, i < B → j < B → get md (i * B + j) = masked i j).
  { intros i j Hi Hj. apply get_lookup. subst md masked.
    rewrite lookup_zip_with, lookup_tiled by done.
    assert (i * B + j < length p) as Hlt by nia.
    destruct (lookup_lt_is_Some_2 p _ Hlt) as [x Hx].
    assert (j < length m) as Hlt' by lia.
    destruct (lookup_lt_is_Some_2 m _ Hlt') as [y Hy].
    rewrite Hx, Hy. cbn. by rewrite (get_lookup _ _ _ Hx), (get_lookup _ _ _ Hy). }
  unfold sum1. simpl shape. cbn [mbind result_bind numel foldr data].
  set (sums := flat_map _ (seq 0 B)).
  assert (Hsums_len : length sums = B).
  { subst sums. rewrite (length_flat_map_seq _ B 1); [lia|]. done. }
  assert (Hsums : ∀ j, j < B → sums !! j = Some (ssum (map (masked j) (seq 0 B)))).
  { intros j Hj. subst sums.
    assert (∀ n s k, k < n →
              flat_map (λ i, map (λ p0, ssum (map (λ j0, get md ((i * B + j0) * 1 + p0))
                                              (seq 0 B))) (seq 0 1)) (seq s n) !! k
              = Some (ssum (map (λ j0, get md (((s + k) * B + j0) * 1 + 0)) (seq 0 B))))
      as Hgen.
    { induction n as [|n IH]; intros s k Hk; [lia|].
      cbn [seq flat_map map app]. destruct k as [|k].
      - cbn [lookup list_lookup]. by rewrite Nat.add_0_r.
      - rewrite lookup_cons. rewrite (IH (S s)) by lia.
        replace (S s + k) with (s + S k) by lia. done. }
    rewrite (Hgen B 0 j) by done. f_equal. f_equal.
    apply map_ext_in. intros j0 Hj0%in_seq. cbn [Nat.add].
    rewrite Nat.mul_1_r, Nat.add_0_r. apply Hmd; lia. }
  unfold div_, binop_. simpl shape.
  unfold broadcast_shapes at 1, pad_shape at 1 2. simpl length. simpl Nat.max.
  simpl Nat.sub. simpl replicate. simpl app. cbn [broadcast_aligned].
  rewrite broadcast_dim_1_r, broadcast_dim_same. rewrite decide_True by done.
  unfold expand_to. simpl shape. simpl data.
  change (pad_shape (length [B; B]) [B; B]) with [B; B].
  change (pad_shape (length [B; B]) [B]) with [1; B].
  rewrite (expand_id [B; B] md) by (simpl; lia).
  rewrite (Htile sums Hsums_len).
  eexists. split; [reflexivity|]. split.
  - rewrite length_zip_with, Hmd_len, length_tiled, Hsums_len. lia.
  - intros i j Hi Hj. apply get_lookup.
    rewrite lookup_zip_with, lookup_tiled, Hsums by done.
    assert (i * B + j < length md) as Hlt by nia.
    destruct (lookup_lt_is_Some_2 md _ Hlt) as [x Hx]. rewrite Hx. cbn.
    by rewrite <-(Hmd i j Hi Hj), (get_lookup _ _ _ Hx).
Qed.

Lemma square_batch_divides_by_the_sum_of_another_row_witness :
  let masked i j :=
    smul (get (map of_Z [1; 2; 5; 1]%Z) (i * 2 + j)) (get (map of_Z [1; 1]%Z) j) in
  ∃ out,
    ActorNet._mask_unavailable_actions
      (Tensor [2; 2] (map of_Z [1; 2; 5; 1]%Z)) (Tensor [2] (map of_Z [1; 1]%Z))
    = Ok (Tensor [2; 2] out)
    ∧ length out = 2 * 2
    ∧ ∀ i j, i < 2 → j < 2 →
        get out (i * 2 + j)
        = sdiv (masked i j) (ssum (map (masked j) (seq 0 2))).
Proof.
  apply (square_batch_divides_by_the_sum_of_another_row 2
           (map of_Z [1; 2; 5; 1]%Z) (map of_Z [1; 1]%Z)).
  - lia.
  - reflexivity.
  - reflexivity.
Defined.
